(** * Conway's Game of Life: the simulation engine of [main.py] and [app.py]

    Both files hold the same engine ([gen], [adjust_grid], [get_neighbors]
    and the event loop of [main]); they differ only in where the window
    size, the tile size and the colours come from.  The grid dimensions are
    therefore parameters of the development, and [MainPy] fixes the
    constants of [main.py]. *)

From stdpp Require Import gmap list.

Local Open Scope Z_scope.

(** Cell coordinates are Python tuples of two unbounded integers; the live
    cells are a Python [set] of them. *)
Abbreviation cell := (Z * Z)%type.
Abbreviation cells := (gset (Z * Z)).

(** ** The constants of [main.py] *)
Module MainPy.
Definition WIDTH : Z := 800.
Definition HEIGHT : Z := 800.
Definition TILE_SIZE : Z := 20.
Definition GRID_WIDTH : Z := WIDTH / TILE_SIZE.
Definition GRID_HEIGHT : Z := HEIGHT / TILE_SIZE.
Definition FPS : Z := 60.
Definition BLACK : Z * Z * Z := (0, 0, 0).
Definition GREY : Z * Z * Z := (128, 128, 128).
Definition GREEN : Z * Z * Z := (0, 128, 0).
End MainPy.

(** ** The settings [app.py] offers in its sidebar *)
Module AppPy.
Definition grid_size_options : list Z := [800; 1000].
Definition tile_size_options : list Z := [20; 40].
Definition GRID_WIDTH (grid_size TILE_SIZE : Z) : Z := grid_size / TILE_SIZE.
Definition GRID_HEIGHT (grid_size TILE_SIZE : Z) : Z := grid_size / TILE_SIZE.
End AppPy.

(** ** Exceptions and random draws

    [random.randrange] is the only source of randomness.  A generator is
    an unbounded supply of raw integers; a computation that draws from it
    threads the generator and may raise. *)
Inductive exn := ValueError | ZeroDivisionError.

Definition rng := nat → Z.

Definition Rand (A : Type) : Type := rng → exn + A * rng.

#[export] Instance rand_ret : MRet Rand := fun A a r => inr (a, r).
#[export] Instance rand_bind : MBind Rand := fun A B k m r =>
  match m r with
  | inl e => inl e
  | inr (a, r') => k a r'
  end.

Definition raise {A} (e : exn) : Rand A := fun _ => inl e.

(** [random.randrange(lo, hi)]: [ValueError] on an empty range, otherwise
    the next raw draw reduced into [lo, hi). *)
Definition randrange (lo hi : Z) : Rand Z := fun r =>
  if decide (lo < hi)
  then inr (lo + r 0%nat `mod` (hi - lo), fun n => r (S n))
  else inl ValueError.

(** [for x in xs: s = f(s, x)] for a body that may draw or raise. *)
Fixpoint foldM {A S} (f : S → A → Rand S) (s : S) (xs : list A) : Rand S :=
  match xs with
  | [] => mret s
  | x :: xs => s' ← f s x; foldM f s' xs
  end.

(** ** The state of [main] and its input events *)
Record state := mkState {
  running : bool;
  playing : bool;
  count : Z;
  positions : cells
}.

Inductive key := K_SPACE | K_c | K_g | K_other.

(** [MOUSEBUTTONDOWN] carries the pixel that [pygame.mouse.get_pos()]
    reports while the event is handled. *)
Inductive event :=
  | QUIT
  | MOUSEBUTTONDOWN (x y : Z)
  | KEYDOWN (k : key)
  | OTHER.

Definition update_freq : Z := 120.

Definition initial : state :=
  {| running := true; playing := false; count := 0; positions := ∅ |}.

(** The pointer-press branch: [remove] when present, [add] otherwise. *)
Definition toggle (pos : cell) (positions : cells) : cells :=
  if decide (pos ∈ positions) then positions ∖ {[pos]}
  else positions ∪ {[pos]}.

(** The eight offsets in the order the two loops visit them. *)
Definition offsets : list (Z * Z) :=
  [(-1, -1); (-1, 0); (-1, 1); (0, -1); (0, 1); (1, -1); (1, 0); (1, 1)].

Definition offset (d : Z) : Prop := d = -1 ∨ d = 0 ∨ d = 1.

(** Patterns used as concrete inputs. *)
Definition blinker_h : cells := {[ (1, 2); (2, 2); (3, 2) ]}.
Definition blinker_v : cells := {[ (2, 1); (2, 2); (2, 3) ]}.
Definition left_edge_column : cells := {[ (0, 4); (0, 5); (0, 6) ]}.

(** ** The rules on the unbounded grid

    The text [app.py] displays: a live cell with two or three live
    neighbors survives, a dead cell with exactly three becomes live, every
    other cell is dead; the neighbors are the eight adjacent cells. *)
Definition moore (pos : cell) : list cell :=
  map (fun d => (pos.1 + d.1, pos.2 + d.2)) offsets.

Definition moore_count (live : cells) (c : cell) : nat :=
  length (filter (fun x => x ∈ live) (moore c)).

Definition conway_alive_next (live : cells) (c : cell) : Prop :=
  (c ∈ live ∧ (moore_count live c = 2%nat ∨ moore_count live c = 3%nat)) ∨
  ((c ∉ live) ∧ moore_count live c = 3%nat).

(** ** What [draw_grid] asks pygame to draw

    [pygame.draw.rect(screen, color, (x0, y0, width, height))] and
    [pygame.draw.line(screen, color, (x1, y1), (x2, y2))]. *)
Inductive draw_cmd (color : Type) :=
  | Rect (c : color) (x0 y0 width height : Z)
  | Line (c : color) (x1 y1 x2 y2 : Z).
Arguments Rect {color} c x0 y0 width height.
Arguments Line {color} c x1 y1 x2 y2.

(** The pixels a [Rect] covers. *)
Definition covers {color} (cmd : draw_cmd color) (x y : Z) : Prop :=
  match cmd with
  | Rect _ x0 y0 width height =>
      x0 ≤ x < x0 + width ∧ y0 ≤ y < y0 + height
  | Line _ _ _ _ _ => False
  end.

(** The three cells stacked in column [col] around row [row]. *)
Definition column_triple (col row : Z) : cells :=
  {[ (col, row - 1); (col, row); (col, row + 1) ]}.

Definition two_cells : cells := {[ (1, 2); (2, 2) ]}.
Definition block : cells := {[ (1, 1); (1, 2); (2, 1); (2, 2) ]}.

(** A generator and two states used as concrete inputs. *)
Definition zero_draws : rng := fun _ => 0.

Definition running_from_zero : state :=
  {| running := true; playing := true; count := 0; positions := blinker_h |}.

Definition about_to_fire : state :=
  {| running := true; playing := true; count := 119;
     positions := blinker_h |}.

Section Engine.

Variables GRID_WIDTH GRID_HEIGHT TILE_SIZE : Z.

(** ** [get_neighbors]

    The inner loop over [dy]; [continue] skips one offset. *)
Definition neighbors_row (x y dx : Z) : list cell :=
  flat_map
    (fun dy =>
       if (y + dy <? 0) || (y + dy >? GRID_HEIGHT) then []
       else if (dx =? 0) && (dy =? 0) then []
       else [(x + dx, y + dy)])
    [-1; 0; 1].

Definition get_neighbors (pos : cell) : list cell :=
  let '(x, y) := pos in
  flat_map
    (fun dx =>
       if (x + dx <? 0) || (x + dx >? GRID_WIDTH) then []
       else neighbors_row x y dx)
    [-1; 0; 1].

(** [list(filter(lambda x: x in positions, neighbors))] *)
Definition live_neighbors (positions : cells) (pos : cell) : list cell :=
  filter (fun x => x ∈ positions) (get_neighbors pos).

(** [len(neighbors)] for the filtered list. *)
Definition live_count (positions : cells) (pos : cell) : nat :=
  length (live_neighbors positions pos).

(** ** [adjust_grid]

    The first loop threads the pair [(all_neighbors, new_positions)]
    through the live cells; the second loop threads [new_positions]
    through [all_neighbors]. *)
Definition survive_step (positions : cells) (position : cell)
    (acc : cells * cells) : cells * cells :=
  let '(all_neighbors, new_positions) := acc in
  let neighbors := get_neighbors position in
  let all_neighbors := all_neighbors ∪ list_to_set neighbors in
  let n := live_count positions position in
  if decide (n = 2%nat ∨ n = 3%nat)
  then (all_neighbors, {[position]} ∪ new_positions)
  else (all_neighbors, new_positions).

Definition birth_step (positions : cells) (position : cell)
    (new_positions : cells) : cells :=
  if decide (live_count positions position = 3%nat)
  then {[position]} ∪ new_positions
  else new_positions.

Definition adjust_grid (positions : cells) : cells :=
  let '(all_neighbors, new_positions) :=
    set_fold (survive_step positions) (∅, ∅) positions in
  set_fold (birth_step positions) new_positions all_neighbors.

(** The candidate set built by the first loop, as a predicate and as a
    set. *)
Definition candidate (positions : cells) (c : cell) : Prop :=
  ∃ p, p ∈ positions ∧ c ∈ get_neighbors p.

Definition neighborhood (positions : cells) : cells :=
  ⋃ ((fun p => list_to_set (get_neighbors p)) <$> elements positions).

Definition in_bounds (c : cell) : Prop :=
  0 ≤ c.1 ≤ GRID_WIDTH ∧ 0 ≤ c.2 ≤ GRID_HEIGHT.

(** What the contract of [get_neighbors] says: the eight offsets, those
    outside [0, GRID_WIDTH] x [0, GRID_HEIGHT] dropped. *)
Definition neighbors_spec (pos : cell) : list cell :=
  filter in_bounds (map (fun d => (pos.1 + d.1, pos.2 + d.2)) offsets).

(** ** [gen]

    The comprehension draws the first component from [GRID_HEIGHT] and the
    second from [GRID_WIDTH], once per element of [range(num)]. *)
Fixpoint draw_cells (n : nat) : Rand (list cell) :=
  match n with
  | O => mret []
  | S n =>
      a ← randrange 0 GRID_HEIGHT;
      b ← randrange 0 GRID_WIDTH;
      rest ← draw_cells n;
      mret ((a, b) :: rest)
  end.

Definition gen (num : Z) : Rand cells :=
  l ← draw_cells (Z.to_nat num); mret (list_to_set l).

(** Where a cell drawn by [gen] lies. *)
Definition drawn (p : cell) : Prop :=
  0 ≤ p.1 < GRID_HEIGHT ∧ 0 ≤ p.2 < GRID_WIDTH.

(** ** One iteration of the loop of [main]

    The clock part returns the new state and how many times it called
    [adjust_grid]. *)
Definition clock (s : state) : state * nat :=
  let count := if playing s then count s + 1 else count s in
  if decide (update_freq ≤ count)
  then ({| running := running s; playing := playing s; count := 0;
           positions := adjust_grid (positions s) |}, 1%nat)
  else ({| running := running s; playing := playing s; count := count;
           positions := positions s |}, 0%nat).

(** [x // TILE_SIZE] *)
Definition floordiv (a b : Z) : Rand Z :=
  if decide (b = 0) then raise ZeroDivisionError else mret (a / b).

Definition handle_event (s : state) (e : event) : Rand state :=
  match e with
  | QUIT =>
      mret {| running := false; playing := playing s; count := count s;
              positions := positions s |}
  | MOUSEBUTTONDOWN x y =>
      col ← floordiv x TILE_SIZE;
      row ← floordiv y TILE_SIZE;
      mret {| running := running s; playing := playing s; count := count s;
              positions := toggle (col, row) (positions s) |}
  | KEYDOWN K_SPACE =>
      mret {| running := running s; playing := negb (playing s);
              count := count s; positions := positions s |}
  | KEYDOWN K_c =>
      mret {| running := running s; playing := false; count := 0;
              positions := ∅ |}
  | KEYDOWN K_g =>
      k ← randrange 4 10;
      new_positions ← gen (k * GRID_WIDTH);
      mret {| running := running s; playing := playing s; count := count s;
              positions := new_positions |}
  | KEYDOWN K_other | OTHER => mret s
  end.

Definition iteration (s : state) (events : list event) : Rand (state * nat) :=
  let '(s1, fired) := clock s in
  s2 ← foldM handle_event s1 events;
  mret (s2, fired).

(** [while running:], one list of events per frame; the number returned is
    the total of calls of [adjust_grid]. *)
Fixpoint main_loop (frames : list (list event)) (s : state)
    : Rand (state * nat) :=
  match frames with
  | [] => mret (s, 0%nat)
  | events :: frames =>
      if running s then
        r1 ← iteration s events;
        r2 ← main_loop frames r1.1;
        mret (r2.1, (r1.2 + r2.2)%nat)
      else mret (s, 0%nat)
  end.

(** Frames without input events. *)
Definition ticks (n : nat) : list (list event) := replicate n [].

Definition counter_ok (s : state) : Prop := 0 ≤ count s < update_freq.

(** ** [draw_grid]

    The window size and the colours are further constants of the files
    ([main.py] fixes them, [app.py] reads them from the sidebar).  The
    commands are listed in the order the three loops issue them; the first
    loop visits the set in some order. *)
Variables WIDTH HEIGHT : Z.
Variable color : Type.
Variables tile_color grid_line_color : color.

Definition draw_grid (positions : cells) : list (draw_cmd color) :=
  ((fun position : cell =>
      let '(col, row) := position in
      Rect tile_color (col * TILE_SIZE) (row * TILE_SIZE) TILE_SIZE TILE_SIZE)
     <$> elements positions)
  ++ ((fun row => Line grid_line_color 0 (row * TILE_SIZE)
                    WIDTH (row * TILE_SIZE))
        <$> seqZ 0 GRID_HEIGHT)
  ++ ((fun col => Line grid_line_color (col * TILE_SIZE) 0
                    (col * TILE_SIZE) HEIGHT)
        <$> seqZ 0 GRID_WIDTH).

(** A pixel of the window, and a cell of the grid the window shows. *)
Definition in_window (x y : Z) : Prop := 0 ≤ x < WIDTH ∧ 0 ≤ y < HEIGHT.

Definition visible (c : cell) : Prop :=
  0 ≤ c.1 < GRID_WIDTH ∧ 0 ≤ c.2 < GRID_HEIGHT.

(** Pointer presses report a pixel of the window. *)
Definition event_in_window (e : event) : Prop :=
  match e with
  | MOUSEBUTTONDOWN x y => in_window x y
  | _ => True
  end.

Definition on_grid (live : cells) : Prop := ∀ c, c ∈ live → in_bounds c.

(** ** Membership in the result of [get_neighbors] *)

Lemma elem_of_neighbors_row x y dx (p : cell) :
  p ∈ neighbors_row x y dx ↔
  ∃ dy, offset dy ∧ ¬ (dx = 0 ∧ dy = 0) ∧
        0 ≤ y + dy ≤ GRID_HEIGHT ∧ p = (x + dx, y + dy).
Proof.
  unfold neighbors_row, offset. rewrite list_elem_of_In, in_flat_map. split.
  - intros (dy & Hdy & Hp). exists dy. simpl in Hdy.
    destruct (Z.ltb_spec (y + dy) 0), (Z.gtb_spec (y + dy) GRID_HEIGHT);
      simpl in Hp; try tauto.
    destruct (Z.eqb_spec dx 0), (Z.eqb_spec dy 0); simpl in Hp;
      try tauto; destruct Hp as [<- | []]; repeat split; lia.
  - intros (dy & Hdy & Hne & Hb & ->). exists dy. split.
    + simpl. lia.
    + destruct (Z.ltb_spec (y + dy) 0), (Z.gtb_spec (y + dy) GRID_HEIGHT);
        simpl; try lia.
      destruct (Z.eqb_spec dx 0), (Z.eqb_spec dy 0); simpl; tauto.
Qed.

Lemma elem_of_get_neighbors x y (p : cell) :
  p ∈ get_neighbors (x, y) ↔
  ∃ dx dy, offset dx ∧ offset dy ∧ ¬ (dx = 0 ∧ dy = 0) ∧
           0 ≤ x + dx ≤ GRID_WIDTH ∧ 0 ≤ y + dy ≤ GRID_HEIGHT ∧
           p = (x + dx, y + dy).
Proof.
  unfold get_neighbors. rewrite list_elem_of_In, in_flat_map. split.
  - intros (dx & Hdx & Hp). exists dx.
    destruct (Z.ltb_spec (x + dx) 0), (Z.gtb_spec (x + dx) GRID_WIDTH);
      simpl in Hp; try tauto.
    apply list_elem_of_In, elem_of_neighbors_row in Hp
      as (dy & Hdy & Hne & Hb & ->).
    exists dy. unfold offset. simpl in Hdx. repeat split; try tauto; lia.
  - intros (dx & dy & Hdx & Hdy & Hne & Hbx & Hby & ->). exists dx. split.
    + unfold offset in Hdx. simpl. lia.
    + destruct (Z.ltb_spec (x + dx) 0), (Z.gtb_spec (x + dx) GRID_WIDTH);
        simpl; try lia.
      apply list_elem_of_In, elem_of_neighbors_row. eauto.
Qed.

(** ** Membership in the result of [adjust_grid] *)

Lemma survive_loop_spec (positions X : cells) :
  let acc := set_fold (survive_step positions) (∅, ∅) X in
  (∀ c, c ∈ acc.1 ↔ candidate X c) ∧
  (∀ c, c ∈ acc.2 ↔
        c ∈ X ∧ (live_count positions c = 2%nat ∨
                 live_count positions c = 3%nat)).
Proof.
  simpl. revert X.
  apply (set_fold_ind_L
    (fun (acc : cells * cells) (X : cells) =>
       (∀ c, c ∈ acc.1 ↔ candidate X c) ∧
       (∀ c, c ∈ acc.2 ↔
             c ∈ X ∧ (live_count positions c = 2%nat ∨
                      live_count positions c = 3%nat)))).
  - split; intros c; cbn [fst snd];
      (split; [by intros ?%not_elem_of_empty |]).
    + by intros (p & ?%not_elem_of_empty & _).
    + by intros [?%not_elem_of_empty _].
  - intros x X [an np] Hx [Han Hnp]. simpl in Han, Hnp.
    unfold survive_step.
    assert (Hcand : ∀ c, c ∈ an ∪ list_to_set (get_neighbors x) ↔
                         candidate ({[x]} ∪ X) c).
    { intros c. rewrite elem_of_union, elem_of_list_to_set, Han.
      unfold candidate. split.
      - intros [(p & Hp & Hc) | Hc]; [exists p | exists x];
          (split; [| done]); apply elem_of_union;
          [by right | left; by apply elem_of_singleton].
      - intros (p & Hp & Hc). apply elem_of_union in Hp as [Hp | Hp].
        + apply elem_of_singleton in Hp as ->. by right.
        + left. eauto. }
    case_decide as Hn; simpl; (split; [exact Hcand |]); intros c.
    + rewrite !elem_of_union, !elem_of_singleton, Hnp. split.
      * intros [-> | [? ?]]; auto.
      * intros [[-> | ?] ?]; auto.
    + rewrite Hnp, elem_of_union, elem_of_singleton. split.
      * intros [? ?]; auto.
      * intros [[-> | ?] ?]; [contradiction | auto].
Qed.

Lemma birth_loop_spec (positions new_positions X : cells) (c : cell) :
  c ∈ set_fold (birth_step positions) new_positions X ↔
  c ∈ new_positions ∨ (c ∈ X ∧ live_count positions c = 3%nat).
Proof.
  revert X c.
  apply (set_fold_ind_L
    (fun (np : cells) (X : cells) =>
       ∀ c, c ∈ np ↔
            c ∈ new_positions ∨ (c ∈ X ∧ live_count positions c = 3%nat))).
  - intros c. split; [by left |].
    by intros [? | [?%not_elem_of_empty _]].
  - intros x X np Hx IH c. unfold birth_step. case_decide as Hn.
    + rewrite !elem_of_union, !elem_of_singleton, IH. split.
      * intros [-> | [? | [? ?]]]; auto.
      * intros [? | [[-> | ?] ?]]; auto.
    + rewrite IH, elem_of_union, elem_of_singleton. split.
      * intros [? | [? ?]]; auto.
      * intros [? | [[-> | ?] ?]]; [auto | contradiction | auto].
Qed.

(** A cell is in the next generation exactly when the first loop kept it or
    the second loop added it. *)
Lemma elem_of_adjust_grid (positions : cells) (c : cell) :
  c ∈ adjust_grid positions ↔
  (c ∈ positions ∧ (live_count positions c = 2%nat ∨
                    live_count positions c = 3%nat)) ∨
  (candidate positions c ∧ live_count positions c = 3%nat).
Proof.
  unfold adjust_grid.
  pose proof (survive_loop_spec positions positions) as Hs. simpl in Hs.
  destruct (set_fold (survive_step positions) (∅, ∅) positions)
    as [all_neighbors new_positions].
  destruct Hs as [Han Hnp]. simpl in Han, Hnp.
  by rewrite birth_loop_spec, Hnp, Han.
Qed.

(** Python leaves the order in which a [for] loop visits a set open.
    Whatever orders the two loops take, the result is the one computed
    above. *)
Lemma survive_any_order (positions : cells) (order : list cell) :
  ∀ acc : cells * cells,
    let acc' :=
      fold_left (fun a x => survive_step positions x a) order acc in
    (∀ c, c ∈ acc'.1 ↔
          c ∈ acc.1 ∨ ∃ p, p ∈ order ∧ c ∈ get_neighbors p) ∧
    (∀ c, c ∈ acc'.2 ↔
          c ∈ acc.2 ∨ (c ∈ order ∧ (live_count positions c = 2%nat ∨
                                     live_count positions c = 3%nat))).
Proof.
  induction order as [| x order IH]; intros [an np]; cbn [fold_left fst snd].
  - split; intros c; (split; [by left |]).
    + by intros [? | (p & ?%elem_of_nil & _)].
    + by intros [? | [?%elem_of_nil _]].
  - destruct (IH (survive_step positions x (an, np))) as [Han Hnp].
    split; intros c.
    + rewrite Han. unfold survive_step.
      case_decide; cbn [fst];
        rewrite elem_of_union, elem_of_list_to_set; split.
      all: try (intros [[? | ?] | (p & Hp & Hc)];
                [by left | right; exists x; split; [apply elem_of_cons; by left | done]
                | right; exists p; split; [apply elem_of_cons; by right | done]]).
      all: intros [? | (p & Hp & Hc)]; [left; by left |];
           apply elem_of_cons in Hp as [-> | Hp];
           [left; by right | right; by exists p].
    + rewrite Hnp. unfold survive_step.
      case_decide as Hn; cbn [snd];
        rewrite ?elem_of_union, ?elem_of_singleton, !elem_of_cons; split.
      * intros [[-> | ?] | [? ?]]; auto.
      * intros [? | [[-> | ?] ?]]; auto.
      * intros [? | [? ?]]; auto.
      * intros [? | [[-> | ?] ?]]; [auto | contradiction | auto].
Qed.

Lemma birth_any_order (positions : cells) (order : list cell) :
  ∀ (new_positions : cells) (c : cell),
    c ∈ fold_left (fun a x => birth_step positions x a) order new_positions ↔
    c ∈ new_positions ∨ (c ∈ order ∧ live_count positions c = 3%nat).
Proof.
  induction order as [| x order IH]; intros np c; cbn [fold_left].
  - split; [by left |]. by intros [? | [?%elem_of_nil _]].
  - rewrite IH. unfold birth_step.
    case_decide as Hn;
      rewrite ?elem_of_union, ?elem_of_singleton, !elem_of_cons; split.
    + intros [[-> | ?] | [? ?]]; auto.
    + intros [? | [[-> | ?] ?]]; auto.
    + intros [? | [? ?]]; auto.
    + intros [? | [[-> | ?] ?]]; [auto | contradiction | auto].
Qed.

Lemma adjust_grid_any_order (positions : cells) (order1 order2 : list cell) :
  let acc :=
    fold_left (fun a x => survive_step positions x a) order1 (∅, ∅) in
  (∀ c, c ∈ order1 ↔ c ∈ positions) →
  (∀ c, c ∈ order2 ↔ c ∈ acc.1) →
  fold_left (fun a x => birth_step positions x a) order2 acc.2
  = adjust_grid positions.
Proof.
  intros acc H1 H2. apply leibniz_equiv. intros c.
  rewrite birth_any_order, elem_of_adjust_grid, H2.
  destruct (survive_any_order positions order1 (∅, ∅)) as [Han Hnp].
  fold acc in Han, Hnp. rewrite Hnp, Han, H1. cbn [fst snd].
  unfold candidate. split.
  - intros [[?%not_elem_of_empty | ?] | [[?%not_elem_of_empty | (p & Hp & Hc)] ?]];
      try done; [by left |].
    right. split; [| done]. exists p. by rewrite <- H1.
  - intros [? | [(p & Hp & Hc) ?]]; [left; by right |].
    right. split; [| done]. right. exists p. by rewrite H1.
Qed.

(** ** The contract of [get_neighbors] *)

Lemma get_neighbors_refines_spec (pos : cell) :
  get_neighbors pos = neighbors_spec pos.
Proof.
  destruct pos as [x y].
  unfold get_neighbors, neighbors_row, neighbors_spec, in_bounds, offsets.
  cbn [flat_map map fst snd app Z.eqb andb].
  repeat match goal with
  | |- context [?a <? ?b] => destruct (Z.ltb_spec a b); try (exfalso; lia)
  | |- context [?a >? ?b] => destruct (Z.gtb_spec a b); try (exfalso; lia)
  end; cbn [orb app];
    repeat (rewrite filter_cons; case_decide; cbn [fst snd] in *;
            try (exfalso; lia));
    reflexivity.
Qed.

Lemma NoDup_get_neighbors (pos : cell) : NoDup (get_neighbors pos).
Proof.
  rewrite get_neighbors_refines_spec. apply NoDup_filter.
  destruct pos as [x y]. unfold offsets. cbn [map fst snd].
  repeat (apply NoDup_cons; split;
          [rewrite ?elem_of_cons, elem_of_nil; intros Hin;
           repeat destruct Hin as [Hin | Hin]; try done;
           injection Hin; lia |]).
  apply NoDup_nil_2.
Qed.

Lemma get_neighbors_interior x y :
  0 < x < GRID_WIDTH → 0 < y < GRID_HEIGHT →
  get_neighbors (x, y) =
  [(x - 1, y - 1); (x - 1, y); (x - 1, y + 1);
   (x, y - 1); (x, y + 1);
   (x + 1, y - 1); (x + 1, y); (x + 1, y + 1)].
Proof.
  intros Hx Hy. unfold get_neighbors, neighbors_row.
  cbn [flat_map map fst snd app Z.eqb andb].
  repeat match goal with
  | |- context [?a <? ?b] => destruct (Z.ltb_spec a b); try lia
  | |- context [?a >? ?b] => destruct (Z.gtb_spec a b); try lia
  end.
  cbn [orb app]. repeat f_equal; lia.
Qed.

(** C4: [get_neighbors (x, y)] is the list of the offsets (dx, dy) of
    {-1,0,1} x {-1,0,1} other than (0,0) with 0 <= x+dx <= GRID_WIDTH and
    0 <= y+dy <= GRID_HEIGHT (the upper bounds inclusive), each once; for
    0 < x < GRID_WIDTH and 0 < y < GRID_HEIGHT it is all eight of them. *)
Theorem get_neighbors_contract x y :
  get_neighbors (x, y) = neighbors_spec (x, y) ∧
  NoDup (get_neighbors (x, y)) ∧
  (∀ p : cell,
     p ∈ get_neighbors (x, y) ↔
     ∃ dx dy, offset dx ∧ offset dy ∧ ¬ (dx = 0 ∧ dy = 0) ∧
              0 ≤ x + dx ≤ GRID_WIDTH ∧ 0 ≤ y + dy ≤ GRID_HEIGHT ∧
              p = (x + dx, y + dy)) ∧
  (0 < x < GRID_WIDTH → 0 < y < GRID_HEIGHT →
   get_neighbors (x, y) =
   [(x - 1, y - 1); (x - 1, y); (x - 1, y + 1);
    (x, y - 1); (x, y + 1);
    (x + 1, y - 1); (x + 1, y); (x + 1, y + 1)]).
Proof.
  split; [apply get_neighbors_refines_spec |].
  split; [apply NoDup_get_neighbors |].
  split; [intros p; apply elem_of_get_neighbors |].
  apply get_neighbors_interior.
Qed.

(** ** The transition rule *)

Lemma elem_of_live_neighbors (positions : cells) (c p : cell) :
  p ∈ live_neighbors positions c ↔ p ∈ positions ∧ p ∈ get_neighbors c.
Proof. unfold live_neighbors. by rewrite list_elem_of_filter. Qed.

Lemma live_count_pos_inv (positions : cells) (c : cell) :
  (0 < live_count positions c)%nat →
  ∃ p, p ∈ positions ∧ p ∈ get_neighbors c.
Proof.
  unfold live_count. intros Hlen.
  destruct (live_neighbors positions c) as [| p l] eqn:Hl;
    [simpl in Hlen; lia |].
  exists p. apply elem_of_live_neighbors. rewrite Hl. apply elem_of_cons.
  by left.
Qed.

(** A neighbor relation that holds one way holds the other way as soon as
    the centre itself passes the bounds test. *)
Lemma get_neighbors_sym (c p : cell) :
  in_bounds c → p ∈ get_neighbors c → c ∈ get_neighbors p.
Proof.
  destruct c as [cx cy], p as [px py]. unfold in_bounds. cbn [fst snd].
  intros [Hx Hy].
  rewrite !elem_of_get_neighbors.
  intros (dx & dy & Hdx & Hdy & Hne & Hbx & Hby & Heq).
  injection Heq as -> ->.
  exists (- dx), (- dy). unfold offset in *.
  repeat split; try lia. f_equal; lia.
Qed.

Lemma get_neighbors_in_bounds (c p : cell) :
  p ∈ get_neighbors c → in_bounds p.
Proof.
  destruct c as [cx cy]. rewrite elem_of_get_neighbors.
  intros (dx & dy & _ & _ & _ & Hbx & Hby & ->). by split.
Qed.

Lemma elem_of_neighborhood (positions : cells) (c : cell) :
  c ∈ neighborhood positions ↔ candidate positions c.
Proof.
  unfold neighborhood, candidate. rewrite elem_of_union_list. split.
  - intros (X & HX & Hc). apply list_elem_of_fmap in HX as (p & -> & Hp).
    exists p. split; [by apply elem_of_elements |].
    by apply elem_of_list_to_set in Hc.
  - intros (p & Hp & Hc). exists (list_to_set (get_neighbors p)). split.
    + apply list_elem_of_fmap. exists p. split; [done |].
      by apply elem_of_elements.
    + by apply elem_of_list_to_set.
Qed.

(** C1, amended: a cell with exactly three live neighbors is in the next
    generation when it is live already or lies in
    [0, GRID_WIDTH] x [0, GRID_HEIGHT]. *)
Theorem birth_rule (positions : cells) (c : cell) :
  c ∈ positions ∨ in_bounds c →
  live_count positions c = 3%nat →
  c ∈ adjust_grid positions.
Proof.
  intros Hc Hn. apply elem_of_adjust_grid. destruct Hc as [Hc | Hc].
  - left. auto.
  - right. split; [| done].
    destruct (live_count_pos_inv positions c) as (p & Hp & Hpc); [lia |].
    exists p. split; [done |]. by apply get_neighbors_sym.
Qed.

(** C2: a live cell with exactly two or exactly three live neighbors is in
    the next generation. *)
Theorem survival_rule (positions : cells) (c : cell) :
  c ∈ positions →
  live_count positions c = 2%nat ∨ live_count positions c = 3%nat →
  c ∈ adjust_grid positions.
Proof. intros Hc Hn. apply elem_of_adjust_grid. left. auto. Qed.

(** C3: a live cell whose live-neighbor count is neither 2 nor 3 is absent
    from the next generation, and so is a dead cell whose count is not 3. *)
Theorem death_rule (positions : cells) (c : cell) :
  (c ∈ positions →
   live_count positions c ≠ 2%nat → live_count positions c ≠ 3%nat →
   c ∉ adjust_grid positions) ∧
  (c ∉ positions →
   live_count positions c ≠ 3%nat →
   c ∉ adjust_grid positions).
Proof.
  split.
  - intros _ H2 H3 Hin. apply elem_of_adjust_grid in Hin.
    destruct Hin as [[_ [? | ?]] | [_ ?]]; contradiction.
  - intros Hc H3 Hin. apply elem_of_adjust_grid in Hin.
    destruct Hin as [[? _] | [_ ?]]; contradiction.
Qed.

(** C10: the next generation is contained in the live cells united with
    the neighbors of the live cells; a cell of it that was not live lies
    in [0, GRID_WIDTH] x [0, GRID_HEIGHT]; the empty set goes to the empty
    set. *)
Theorem no_spontaneous_generation (positions : cells) :
  adjust_grid positions ⊆ positions ∪ neighborhood positions ∧
  (∀ c, c ∈ adjust_grid positions → c ∉ positions →
        0 ≤ c.1 ≤ GRID_WIDTH ∧ 0 ≤ c.2 ≤ GRID_HEIGHT) ∧
  adjust_grid ∅ = ∅.
Proof.
  split; [| split].
  - intros c Hc. apply elem_of_adjust_grid in Hc. apply elem_of_union.
    destruct Hc as [[? _] | [? _]]; [by left | right].
    by apply elem_of_neighborhood.
  - intros c Hc Hdead. apply elem_of_adjust_grid in Hc.
    destruct Hc as [[? _] | [(p & _ & Hp) _]]; [contradiction |].
    exact (get_neighbors_in_bounds p c Hp).
  - apply leibniz_equiv. intros c. split; [| by intros ?%not_elem_of_empty].
    intros Hc. apply elem_of_adjust_grid in Hc.
    destruct Hc as [[Hc _] | [(p & Hp & _) _]];
      by apply not_elem_of_empty in Hc || apply not_elem_of_empty in Hp.
Qed.

(** ** Toggling a cell *)

Lemma toggle_toggle (pos : cell) (live : cells) :
  toggle pos (toggle pos live) = live.
Proof.
  unfold toggle. destruct (decide (pos ∈ live)) as [Hin | Hout].
  - rewrite decide_False by (rewrite elem_of_difference, elem_of_singleton; tauto).
    apply leibniz_equiv. intros d.
    rewrite elem_of_union, elem_of_difference, elem_of_singleton.
    destruct (decide (d = pos)) as [-> | ?]; tauto.
  - rewrite decide_True by (rewrite elem_of_union, elem_of_singleton; tauto).
    apply leibniz_equiv. intros d.
    rewrite elem_of_difference, elem_of_union, elem_of_singleton.
    destruct (decide (d = pos)) as [-> | ?]; tauto.
Qed.

Lemma rand_bind_inr {A B} (m : Rand A) (k : A → Rand B) r a r' :
  m r = inr (a, r') → (m ≫= k) r = k a r'.
Proof. intros Hm. unfold mbind, rand_bind. by rewrite Hm. Qed.

Lemma floordiv_nonzero a b r : b ≠ 0 → floordiv a b r = inr (a / b, r).
Proof. intros Hb. unfold floordiv. by rewrite decide_False. Qed.

Lemma handle_pointer_press s x y r :
  TILE_SIZE ≠ 0 →
  handle_event s (MOUSEBUTTONDOWN x y) r =
  inr ({| running := running s; playing := playing s; count := count s;
          positions := toggle (x / TILE_SIZE, y / TILE_SIZE) (positions s) |},
       r).
Proof.
  intros HT. cbn [handle_event].
  rewrite (rand_bind_inr _ _ r (x / TILE_SIZE) r) by by apply floordiv_nonzero.
  by rewrite (rand_bind_inr _ _ r (y / TILE_SIZE) r) by by apply floordiv_nonzero.
Qed.

(** C7: toggling the same cell twice gives back the set it started from,
    so the membership of that cell and of every other cell is as before;
    two pointer presses on the same pixel leave the state as it was. *)
Theorem toggle_self_inverse (live : cells) (c : cell) :
  toggle c (toggle c live) = live ∧
  (∀ d, d ∈ toggle c (toggle c live) ↔ d ∈ live) ∧
  (∀ s x y r,
     TILE_SIZE ≠ 0 →
     (s1 ← handle_event s (MOUSEBUTTONDOWN x y);
      handle_event s1 (MOUSEBUTTONDOWN x y)) r = inr (s, r)).
Proof.
  split; [apply toggle_toggle |].
  split; [intros d; by rewrite toggle_toggle |].
  intros s x y r HT.
  erewrite rand_bind_inr by by apply handle_pointer_press.
  rewrite handle_pointer_press by done. cbn [running playing count positions].
  rewrite toggle_toggle. by destruct s.
Qed.

(** ** Random generations *)

Lemma randrange_inr lo hi r :
  lo < hi →
  ∃ v, randrange lo hi r = inr (v, fun n => r (S n)) ∧ lo ≤ v < hi.
Proof.
  intros Hlt. exists (lo + r 0%nat `mod` (hi - lo)). split.
  - unfold randrange. by rewrite decide_True.
  - pose proof (Z.mod_pos_bound (r 0%nat) (hi - lo)). lia.
Qed.

(** Every value of the range is the outcome of some generator. *)
Lemma randrange_onto lo hi v r :
  lo ≤ v < hi →
  randrange lo hi (fun n => match n with O => v - lo | S n => r n end)
  = inr (v, r).
Proof.
  intros Hv. unfold randrange. rewrite decide_True by lia.
  rewrite Z.mod_small by lia. do 2 f_equal. lia.
Qed.

Lemma draw_cells_inr n r :
  0 < GRID_WIDTH → 0 < GRID_HEIGHT →
  ∃ l r', draw_cells n r = inr (l, r') ∧ length l = n ∧ Forall drawn l.
Proof.
  intros HW HH. revert r. induction n as [| n IH]; intros r.
  - exists [], r. repeat split. constructor.
  - destruct (randrange_inr 0 GRID_HEIGHT r HH) as (a & Ha & Hab).
    destruct (randrange_inr 0 GRID_WIDTH (fun n => r (S n)) HW)
      as (b & Hb & Hbb).
    destruct (IH (fun n => r (S (S n)))) as (l & r' & Hl & Hlen & Hall).
    exists ((a, b) :: l), r'. split; [| split].
    + cbn [draw_cells].
      rewrite (rand_bind_inr _ _ _ _ _ Ha), (rand_bind_inr _ _ _ _ _ Hb).
      by rewrite (rand_bind_inr _ _ _ _ _ Hl).
    + simpl. by rewrite Hlen.
    + constructor; [by split | done].
Qed.

Lemma size_list_to_set_le (l : list cell) :
  (size (list_to_set l : cells) ≤ length l)%nat.
Proof.
  induction l as [| x l IH].
  - rewrite list_to_set_nil, size_empty. done.
  - rewrite list_to_set_cons, size_union_alt, size_singleton. cbn [length].
    pose proof (subseteq_size (list_to_set l ∖ {[x]} : cells) (list_to_set l))
      as Hle.
    assert ((list_to_set l ∖ {[x]} : cells) ⊆ list_to_set l) as Hsub.
    { intros d. rewrite elem_of_difference. tauto. }
    specialize (Hle Hsub). lia.
Qed.

(** C8: with positive grid dimensions [gen num] returns, for [0 <= num]
    and every generator, a set of at most [num] cells (a, b), each with
    0 <= a < GRID_HEIGHT and 0 <= b < GRID_WIDTH; the randomize key
    replaces the live cells by [gen (k * GRID_WIDTH)] for a draw
    4 <= k < 10 and changes nothing else. *)
Theorem gen_bounds :
  0 < GRID_WIDTH → 0 < GRID_HEIGHT →
  (∀ num r,
     0 ≤ num →
     ∃ live r', gen num r = inr (live, r') ∧
                Z.of_nat (size live) ≤ num ∧
                ∀ a b, (a, b) ∈ live →
                       0 ≤ a < GRID_HEIGHT ∧ 0 ≤ b < GRID_WIDTH) ∧
  (∀ s r,
     ∃ k r1 live r',
       randrange 4 10 r = inr (k, r1) ∧ 4 ≤ k < 10 ∧
       gen (k * GRID_WIDTH) r1 = inr (live, r') ∧
       handle_event s (KEYDOWN K_g) r =
       inr ({| running := running s; playing := playing s;
               count := count s; positions := live |}, r')).
Proof.
  intros HW HH.
  assert (Hgen : ∀ num r,
     0 ≤ num →
     ∃ live r', gen num r = inr (live, r') ∧
                Z.of_nat (size live) ≤ num ∧
                ∀ a b, (a, b) ∈ live →
                       0 ≤ a < GRID_HEIGHT ∧ 0 ≤ b < GRID_WIDTH).
  { intros num r Hnum.
    destruct (draw_cells_inr (Z.to_nat num) r HW HH)
      as (l & r' & Hl & Hlen & Hall).
    exists (list_to_set l), r'. split; [| split].
    - unfold gen. by rewrite (rand_bind_inr _ _ _ _ _ Hl).
    - pose proof (size_list_to_set_le l). lia.
    - intros a b Hab. apply elem_of_list_to_set in Hab.
      rewrite Forall_forall in Hall. exact (Hall (a, b) Hab). }
  split; [exact Hgen |].
  intros s r.
  destruct (randrange_inr 4 10 r) as (k & Hk & Hkb); [lia |].
  destruct (Hgen (k * GRID_WIDTH) (fun n => r (S n))) as (live & r' & Hg & _);
    [nia |].
  exists k, (fun n => r (S n)), live, r'. repeat split; try done; try lia.
  cbn [handle_event].
  rewrite (rand_bind_inr _ _ _ _ _ Hk). by rewrite (rand_bind_inr _ _ _ _ _ Hg).
Qed.

(** ** The clock and the tick counter *)

Lemma rand_bind_inv {A B} (m : Rand A) (k : A → Rand B) r b r' :
  (m ≫= k) r = inr (b, r') →
  ∃ a r1, m r = inr (a, r1) ∧ k a r1 = inr (b, r').
Proof.
  unfold mbind, rand_bind. destruct (m r) as [e | [a r1]]; [done |]. eauto.
Qed.

Lemma clock_paused s :
  playing s = false → count s < update_freq → clock s = (s, 0%nat).
Proof.
  intros Hp Hc. unfold clock. rewrite Hp, decide_False by lia.
  destruct s; simpl in *. by subst.
Qed.

Lemma clock_running_below s :
  playing s = true → count s + 1 < update_freq →
  clock s = ({| running := running s; playing := true;
                count := count s + 1; positions := positions s |}, 0%nat).
Proof.
  intros Hp Hc. unfold clock. rewrite Hp, decide_False by lia. done.
Qed.

Lemma clock_running_fire s :
  playing s = true → update_freq ≤ count s + 1 →
  clock s = ({| running := running s; playing := true; count := 0;
                positions := adjust_grid (positions s) |}, 1%nat).
Proof.
  intros Hp Hc. unfold clock. rewrite Hp, decide_True by lia. done.
Qed.

Lemma clock_counter_ok s : counter_ok s → counter_ok (clock s).1.
Proof.
  unfold counter_ok, clock, update_freq. intros Hc.
  destruct (playing s); case_decide; simpl; lia.
Qed.

(** The clock calls [adjust_grid] only when the counter, one added, has
    reached the threshold. *)
Lemma clock_quiet s :
  count s + 1 < update_freq →
  (clock s).2 = 0%nat ∧ count (clock s).1 ≤ count s + 1 ∧
  (0 ≤ count s → 0 ≤ count (clock s).1).
Proof.
  intros Hc. unfold clock.
  destruct (playing s); rewrite decide_False by lia; simpl; lia.
Qed.

Lemma handle_event_count s e r s' r' :
  handle_event s e r = inr (s', r') → count s' = count s ∨ count s' = 0.
Proof.
  destruct e as [| x y | [| | |] |]; cbn [handle_event]; intros He;
    try (injection He as <- _; simpl; auto; fail).
  - apply rand_bind_inv in He as (col & r1 & _ & He).
    apply rand_bind_inv in He as (row & r2 & _ & He).
    injection He as <- _. simpl. auto.
  - apply rand_bind_inv in He as (k & r1 & _ & He).
    apply rand_bind_inv in He as (live & r2 & _ & He).
    injection He as <- _. simpl. auto.
Qed.

Lemma foldM_handle_event_count events : ∀ s r s' r',
  foldM handle_event s events r = inr (s', r') →
  count s' = count s ∨ count s' = 0.
Proof.
  induction events as [| e events IH]; intros s r s' r' Hf.
  - injection Hf as <- _. auto.
  - cbn [foldM] in Hf. apply rand_bind_inv in Hf as (s1 & r1 & He & Hf).
    apply handle_event_count in He. apply IH in Hf. lia.
Qed.

Section Totality.

Hypothesis width_pos : 0 < GRID_WIDTH.
Hypothesis height_pos : 0 < GRID_HEIGHT.
Hypothesis tile_nonzero : TILE_SIZE ≠ 0.

Lemma gen_inr num r : ∃ live r', gen num r = inr (live, r').
Proof.
  destruct (draw_cells_inr (Z.to_nat num) r width_pos height_pos)
    as (l & r' & Hl & _).
  exists (list_to_set l), r'. unfold gen. by rewrite (rand_bind_inr _ _ _ _ _ Hl).
Qed.

Lemma handle_event_inr s e r : ∃ s' r', handle_event s e r = inr (s', r').
Proof.
  destruct e as [| x y | [| | |] |]; cbn [handle_event];
    try (eexists _, _; reflexivity).
  - eexists _, _. by apply handle_pointer_press.
  - destruct (randrange_inr 4 10 r) as (k & Hk & _); [lia |].
    destruct (gen_inr (k * GRID_WIDTH) (fun n => r (S n))) as (live & r' & Hg).
    eexists _, r'. rewrite (rand_bind_inr _ _ _ _ _ Hk).
    by rewrite (rand_bind_inr _ _ _ _ _ Hg).
Qed.

Lemma foldM_handle_event_inr events : ∀ s r,
  ∃ s' r', foldM handle_event s events r = inr (s', r').
Proof.
  induction events as [| e events IH]; intros s r.
  - by exists s, r.
  - destruct (handle_event_inr s e r) as (s1 & r1 & He).
    destruct (IH s1 r1) as (s' & r' & Hf).
    exists s', r'. cbn [foldM]. by rewrite (rand_bind_inr _ _ _ _ _ He).
Qed.

Lemma iteration_inr s events r :
  ∃ s' r', iteration s events r = inr ((s', (clock s).2), r') ∧
           (count s' = count (clock s).1 ∨ count s' = 0).
Proof.
  unfold iteration. destruct (clock s) as [s1 fired]. simpl.
  destruct (foldM_handle_event_inr events s1 r) as (s' & r' & Hf).
  exists s', r'. split.
  - by rewrite (rand_bind_inr _ _ _ _ _ Hf).
  - by apply foldM_handle_event_count in Hf.
Qed.

(** Fewer frames than the counter still needs: no call of [adjust_grid],
    whatever the events are. *)
Lemma main_loop_quiet frames : ∀ s r,
  0 ≤ count s → count s + Z.of_nat (length frames) < update_freq →
  ∃ s' r', main_loop frames s r = inr ((s', 0%nat), r').
Proof.
  induction frames as [| events frames IH]; intros s r H0 Hlen.
  - by exists s, r.
  - cbn [main_loop]. destruct (running s); [| by exists s, r].
    cbn [length] in Hlen.
    destruct (clock_quiet s) as (Hfired & Hle & Hge); [lia |].
    destruct (iteration_inr s events r) as (s1 & r1 & Hit & Hcount).
    rewrite Hfired in Hit.
    destruct (IH s1 r1) as (s' & r' & Hrest); [lia | lia |].
    exists s', r'. rewrite (rand_bind_inr _ _ _ _ _ Hit). cbn [fst snd].
    by rewrite (rand_bind_inr _ _ _ _ _ Hrest).
Qed.

End Totality.

Lemma iteration_no_events s r : iteration s [] r = inr (clock s, r).
Proof. unfold iteration. by destruct (clock s). Qed.

Lemma main_loop_paused N : ∀ s r,
  playing s = false → count s < update_freq →
  main_loop (ticks N) s r = inr ((s, 0%nat), r).
Proof.
  induction N as [| N IH]; intros s r Hp Hc; [done |].
  cbn [ticks replicate main_loop]. destruct (running s); [| done].
  rewrite (rand_bind_inr _ _ r (s, 0%nat) r)
    by (by rewrite iteration_no_events, clock_paused).
  cbn [fst snd]. fold (ticks N). by rewrite (rand_bind_inr _ _ _ _ _ (IH s r Hp Hc)).
Qed.

(** While running, [N] quiet frames move the counter from [c] to [c + N]
    as long as that stays below the threshold. *)
Lemma main_loop_running_below N : ∀ live c r,
  c + Z.of_nat N < update_freq →
  main_loop (ticks N)
    {| running := true; playing := true; count := c; positions := live |} r
  = inr (({| running := true; playing := true; count := c + Z.of_nat N;
             positions := live |}, 0%nat), r).
Proof.
  induction N as [| N IH]; intros live c r Hc.
  - cbn [ticks replicate main_loop]. by rewrite Z.add_0_r.
  - cbn [ticks replicate main_loop running]. fold (ticks N).
    rewrite (rand_bind_inr _ _ r
      ({| running := true; playing := true; count := c + 1;
          positions := live |}, 0%nat) r).
    2:{ rewrite iteration_no_events, clock_running_below;
          cbn [playing count]; [done | done | lia]. }
    assert (Hc' : c + 1 + Z.of_nat N < update_freq) by lia.
    cbn [fst snd]. rewrite (rand_bind_inr _ _ _ _ _ (IH live (c + 1) r Hc')).
    cbn [fst snd]. unfold mret, rand_ret. do 4 f_equal. lia.
Qed.

(** While running, the frame on which the counter reaches the threshold
    calls [adjust_grid] once and resets the counter. *)
Lemma main_loop_running_fire N : ∀ live c r,
  c + Z.of_nat (S N) = update_freq →
  main_loop (ticks (S N))
    {| running := true; playing := true; count := c; positions := live |} r
  = inr (({| running := true; playing := true; count := 0;
             positions := adjust_grid live |}, 1%nat), r).
Proof.
  induction N as [| N IH]; intros live c r Hc.
  - cbn [ticks replicate main_loop running].
    rewrite (rand_bind_inr _ _ r
      ({| running := true; playing := true; count := 0;
          positions := adjust_grid live |}, 1%nat) r); [done |].
    rewrite iteration_no_events, clock_running_fire;
      cbn [playing count]; [done | done | lia].
  - assert (Hc' : c + 1 + Z.of_nat (S N) = update_freq) by lia.
    change (ticks (S (S N))) with ([] :: ticks (S N)).
    cbn [main_loop running].
    rewrite (rand_bind_inr _ _ r
      ({| running := true; playing := true; count := c + 1;
          positions := live |}, 0%nat) r).
    2:{ rewrite iteration_no_events, clock_running_below;
          cbn [playing count]; [done | done | lia]. }
    cbn [fst snd]. by rewrite (rand_bind_inr _ _ _ _ _ (IH live (c + 1) r Hc')).
Qed.

(** C5: from a paused state, fewer frames than [update_freq] call
    [adjust_grid] zero times (the state does not move without events, and
    from counter 0 no events can bring a call about either); from a running
    state with counter 0 and without events, [update_freq] frames call it
    exactly once, on the last of them, replace the live cells by the next
    generation and leave the counter at 0. *)
Theorem clock_cadence :
  (∀ s N r,
     playing s = false → counter_ok s → Z.of_nat N < update_freq →
     main_loop (ticks N) s r = inr ((s, 0%nat), r)) ∧
  (∀ s r,
     running s = true → playing s = true → count s = 0 →
     (∀ N, Z.of_nat N < update_freq →
           main_loop (ticks N) s r =
           inr (({| running := true; playing := true; count := Z.of_nat N;
                    positions := positions s |}, 0%nat), r)) ∧
     main_loop (ticks (Z.to_nat update_freq)) s r =
     inr (({| running := true; playing := true; count := 0;
              positions := adjust_grid (positions s) |}, 1%nat), r)) ∧
  (0 < GRID_WIDTH → 0 < GRID_HEIGHT → TILE_SIZE ≠ 0 →
   ∀ frames s r,
     count s = 0 → Z.of_nat (length frames) < update_freq →
     ∃ s' r', main_loop frames s r = inr ((s', 0%nat), r')).
Proof.
  split; [| split].
  - intros s N r Hp [_ Hc] _. by apply main_loop_paused.
  - intros [run play c live] r Hrun Hplay Hc. simpl in Hrun, Hplay, Hc.
    subst run play c. cbn [positions]. split.
    + intros N HN. by rewrite main_loop_running_below.
    + change (Z.to_nat update_freq) with (S 119).
      by apply main_loop_running_fire.
  - intros HW HH HT frames s r Hc Hlen.
    apply main_loop_quiet; [done | done | done | lia | lia].
Qed.

Lemma iteration_counter_ok s events r s' n r' :
  counter_ok s → iteration s events r = inr ((s', n), r') → counter_ok s'.
Proof.
  intros Hs Hit. pose proof (clock_counter_ok s Hs) as Hclock.
  unfold iteration in Hit. destruct (clock s) as [s1 fired].
  apply rand_bind_inv in Hit as (s2 & r2 & Hf & Hret).
  injection Hret as <- _ _. apply foldM_handle_event_count in Hf.
  unfold counter_ok, update_freq in *. simpl in Hclock. lia.
Qed.

(** C9: an iteration that starts with 0 <= count < update_freq ends with
    0 <= count < update_freq, whatever events it processes, and with
    positive grid dimensions and a nonzero tile size it does end; the clear
    key empties the live cells, pauses and sets the counter to 0. *)
Theorem counter_invariant :
  (∀ s events r s' n r',
     counter_ok s → iteration s events r = inr ((s', n), r') →
     counter_ok s') ∧
  (0 < GRID_WIDTH → 0 < GRID_HEIGHT → TILE_SIZE ≠ 0 →
   ∀ s events r,
     counter_ok s →
     ∃ s' n r', iteration s events r = inr ((s', n), r') ∧ counter_ok s') ∧
  (∀ s r,
     handle_event s (KEYDOWN K_c) r =
     inr ({| running := running s; playing := false; count := 0;
             positions := ∅ |}, r)).
Proof.
  split; [| split].
  - intros s events r s' n r'. apply iteration_counter_ok.
  - intros HW HH HT s events r Hs.
    destruct (iteration_inr HW HH HT s events r) as (s' & r' & Hit & _).
    exists s', (clock s).2, r'. split; [done |].
    by apply (iteration_counter_ok s events r s' (clock s).2 r').
  - done.
Qed.

(** ** Further properties of [get_neighbors] and [adjust_grid] *)

Lemma not_self_neighbor (c : cell) : c ∉ get_neighbors c.
Proof.
  destruct c as [x y]. rewrite elem_of_get_neighbors.
  intros (dx & dy & _ & _ & Hne & _ & _ & Heq). injection Heq as Hx Hy.
  apply Hne. lia.
Qed.

Lemma length_get_neighbors (c : cell) : (length (get_neighbors c) ≤ 8)%nat.
Proof.
  rewrite get_neighbors_refines_spec. unfold neighbors_spec.
  etrans; [apply length_filter |]. by rewrite length_map.
Qed.

(** X4: no cell is its own neighbor; between two cells that pass the bounds
    test the neighbor relation is symmetric; a cell has at most eight
    neighbors, hence at most eight live ones. *)
Theorem neighbor_relation :
  (∀ c, c ∉ get_neighbors c) ∧
  (∀ c p, in_bounds c → in_bounds p →
          (p ∈ get_neighbors c ↔ c ∈ get_neighbors p)) ∧
  (∀ c, (length (get_neighbors c) ≤ 8)%nat) ∧
  (∀ live c, (live_count live c ≤ 8)%nat).
Proof.
  split; [apply not_self_neighbor |].
  split; [intros c p Hc Hp; split; by apply get_neighbors_sym |].
  split; [apply length_get_neighbors |].
  intros live c. unfold live_count, live_neighbors.
  etrans; [apply length_filter | apply length_get_neighbors].
Qed.

(** X1: the next generation, cell by cell: a live cell is kept exactly when
    it has two or three live neighbors, and a dead cell is added exactly
    when it passes the bounds test and has three. *)
Theorem next_generation_iff (positions : cells) (c : cell) :
  c ∈ adjust_grid positions ↔
  (c ∈ positions ∧ (live_count positions c = 2%nat ∨
                    live_count positions c = 3%nat)) ∨
  ((c ∉ positions) ∧ in_bounds c ∧ live_count positions c = 3%nat).
Proof.
  rewrite elem_of_adjust_grid. split.
  - intros [? | [(p & Hp & Hc) Hn]]; [by left |].
    destruct (decide (c ∈ positions)); [left; auto |].
    right. split; [done |]. split; [| done].
    exact (get_neighbors_in_bounds p c Hc).
  - intros [? | (Hdead & Hb & Hn)]; [by left |].
    right. split; [| done].
    destruct (live_count_pos_inv positions c) as (p & Hp & Hpc); [lia |].
    exists p. split; [done |]. by apply get_neighbors_sym.
Qed.

(** X19: a set of live cells is its own next generation exactly when
    every live cell has two or three live neighbors and no dead cell that
    passes the bounds test has three. *)
Theorem still_life_iff (positions : cells) :
  adjust_grid positions = positions ↔
  (∀ c, c ∈ positions →
        live_count positions c = 2%nat ∨ live_count positions c = 3%nat) ∧
  (∀ c, c ∉ positions → in_bounds c → live_count positions c ≠ 3%nat).
Proof.
  split.
  - intros Hfix. split.
    + intros c Hc. rewrite <- Hfix in Hc. apply elem_of_adjust_grid in Hc.
      destruct Hc as [[_ ?] | [_ ?]]; auto.
    + intros c Hdead Hb Hn. apply Hdead. rewrite <- Hfix.
      apply elem_of_adjust_grid. right. split; [| done].
      destruct (live_count_pos_inv positions c) as (p & Hp & Hpc); [lia |].
      exists p. split; [done |]. by apply get_neighbors_sym.
  - intros [Hkeep Hnone]. apply leibniz_equiv. intros c.
    rewrite elem_of_adjust_grid. split.
    + intros [[? _] | [(p & _ & Hc) Hn]]; [done |].
      destruct (decide (c ∈ positions)) as [? | Hdead]; [done |].
      destruct (Hnone c Hdead (get_neighbors_in_bounds p c Hc) Hn).
    + intros Hc. left. auto.
Qed.

Lemma live_count_le_others (positions : cells) (c : cell) :
  (live_count positions c ≤ size (positions ∖ {[c]}))%nat.
Proof.
  unfold live_count.
  assert (Hnd : NoDup (live_neighbors positions c)).
  { unfold live_neighbors. apply NoDup_filter, NoDup_get_neighbors. }
  rewrite <- (size_list_to_set (C:=cells)) by done.
  apply subseteq_size. intros p Hp.
  apply elem_of_list_to_set, elem_of_live_neighbors in Hp as [Hlive Hnb].
  apply elem_of_difference. split; [done |].
  rewrite elem_of_singleton. intros ->. by apply not_self_neighbor in Hnb.
Qed.

(** X3: a generation of fewer than three live cells has an empty next
    generation. *)
Theorem sparse_generation_dies (positions : cells) :
  (size positions < 3)%nat → adjust_grid positions = ∅.
Proof.
  intros Hsize. apply leibniz_equiv. intros c.
  split; [| by intros ?%not_elem_of_empty].
  intros Hc. exfalso. apply elem_of_adjust_grid in Hc.
  pose proof (live_count_le_others positions c) as Hle.
  pose proof (subseteq_size (positions ∖ {[c]}) positions) as Hsub.
  assert (positions ∖ {[c]} ⊆ positions) as Hincl.
  { intros d. rewrite elem_of_difference. tauto. }
  specialize (Hsub Hincl).
  destruct Hc as [[Hlive Hn] | [_ Hn]]; [| lia].
  assert ({[c]} ⊆ positions) as Hsingle.
  { intros d. rewrite elem_of_singleton. by intros ->. }
  rewrite size_difference, size_singleton in Hle by done. lia.
Qed.

Lemma live_count_moore (positions : cells) (c : cell) :
  on_grid positions → live_count positions c = moore_count positions c.
Proof.
  intros Hgrid. unfold live_count, live_neighbors, moore_count.
  rewrite get_neighbors_refines_spec. unfold neighbors_spec.
  change (map (fun d => (c.1 + d.1, c.2 + d.2)) offsets) with (moore c).
  f_equal. induction (moore c) as [| a l IH]; [done |].
  rewrite !filter_cons.
  destruct (decide (in_bounds a)) as [Hb | Hb],
           (decide (a ∈ positions)) as [Ha | Ha];
    rewrite ?filter_cons, ?decide_True, ?decide_False by done;
    rewrite ?IH; try done.
  by apply Hgrid in Ha.
Qed.

Lemma moore_count_pos_inv (positions : cells) (c : cell) :
  (0 < moore_count positions c)%nat →
  ∃ p d, p ∈ positions ∧ d ∈ offsets ∧ p = (c.1 + d.1, c.2 + d.2).
Proof.
  unfold moore_count. intros Hlen.
  destruct (filter (fun x => x ∈ positions) (moore c)) as [| p l] eqn:Hl;
    [simpl in Hlen; lia |].
  assert (Hp : p ∈ filter (fun x => x ∈ positions) (moore c)).
  { rewrite Hl. apply elem_of_cons. by left. }
  apply list_elem_of_filter in Hp as [Hlive Hp].
  apply list_elem_of_In, in_map_iff in Hp as (d & <- & Hd).
  exists (c.1 + d.1, c.2 + d.2), d. by rewrite list_elem_of_In.
Qed.

Lemma offsets_small (d : Z * Z) :
  d ∈ offsets → -1 ≤ d.1 ≤ 1 ∧ -1 ≤ d.2 ≤ 1.
Proof.
  unfold offsets. rewrite !elem_of_cons, elem_of_nil.
  intros [-> | [-> | [-> | [-> | [-> | [-> | [-> | [-> | []]]]]]]]];
    cbn [fst snd]; lia.
Qed.

(** X2: when every live cell passes the bounds test, the next generation
    is what the rules of the unbounded grid give, cut down to the cells
    that pass the bounds test; when every live cell is at least one cell
    away from all four bounds, nothing is cut. *)
Theorem adjust_grid_conway (positions : cells) :
  (on_grid positions →
   ∀ c, c ∈ adjust_grid positions ↔
        in_bounds c ∧ conway_alive_next positions c) ∧
  ((∀ p, p ∈ positions →
         1 ≤ p.1 ≤ GRID_WIDTH - 1 ∧ 1 ≤ p.2 ≤ GRID_HEIGHT - 1) →
   ∀ c, c ∈ adjust_grid positions ↔ conway_alive_next positions c).
Proof.
  assert (Hcut : on_grid positions →
            ∀ c, c ∈ adjust_grid positions ↔
                 in_bounds c ∧ conway_alive_next positions c).
  { intros Hgrid c. rewrite elem_of_adjust_grid. unfold conway_alive_next.
    rewrite <- (live_count_moore positions c Hgrid). split.
    - intros [[Hc Hn] | [(p & Hp & Hc) Hn]].
      + split; [by apply Hgrid | by left].
      + split; [exact (get_neighbors_in_bounds p c Hc) |].
        destruct (decide (c ∈ positions)); [left; auto | right; auto].
    - intros [Hb [[Hc Hn] | [Hdead Hn]]]; [by left |].
      right. split; [| done].
      destruct (live_count_pos_inv positions c) as (p & Hp & Hpc); [lia |].
      exists p. split; [done |]. by apply get_neighbors_sym. }
  split; [exact Hcut |].
  intros Hinner c.
  assert (Hgrid : on_grid positions).
  { intros p Hp. destruct (Hinner p Hp). unfold in_bounds. lia. }
  rewrite (Hcut Hgrid). split; [tauto |]. intros Hrule. split; [| done].
  destruct Hrule as [[Hc _] | [_ Hn]]; [by apply Hgrid |].
  destruct (moore_count_pos_inv positions c) as (p & d & Hp & Hd & Heq);
    [lia |].
  destruct (Hinner p Hp) as [Hx Hy]. apply offsets_small in Hd.
  subst p. cbn [fst snd] in Hx, Hy. unfold in_bounds. lia.
Qed.

(** ** Pointer presses and [draw_grid] *)

Lemma elem_of_toggle (a d : cell) (live : cells) :
  d ∈ toggle a live ↔ (d ∈ live ∧ d ≠ a) ∨ (d = a ∧ a ∉ live).
Proof.
  unfold toggle. case_decide as Ha.
  - rewrite elem_of_difference, elem_of_singleton. tauto.
  - rewrite elem_of_union, elem_of_singleton.
    destruct (decide (d = a)) as [-> | ?]; tauto.
Qed.

(** X5: a toggle flips the membership of its cell and of no other cell,
    changes the number of live cells by one, and two toggles give the
    same set in either order. *)
Theorem toggle_effect (live : cells) (a b : cell) :
  (a ∈ toggle a live ↔ a ∉ live) ∧
  (∀ d, d ≠ a → (d ∈ toggle a live ↔ d ∈ live)) ∧
  size (toggle a live) =
    (if decide (a ∈ live) then size live - 1 else size live + 1)%nat ∧
  toggle a (toggle b live) = toggle b (toggle a live).
Proof.
  split; [rewrite elem_of_toggle; tauto |].
  split; [intros d Hd; rewrite elem_of_toggle; tauto |].
  split.
  - unfold toggle. case_decide as Ha.
    + rewrite size_difference, size_singleton; [done |].
      intros d. rewrite elem_of_singleton. by intros ->.
    + rewrite size_union, size_singleton; [done |].
      intros d Hd. rewrite elem_of_singleton. by intros ->.
  - apply leibniz_equiv. intros d. rewrite !elem_of_toggle.
    destruct (decide (d = a)) as [Ha | Ha], (decide (d = b)) as [Hb | Hb];
      subst; intuition congruence.
Qed.

Lemma floor_div_tile (x col : Z) :
  0 < TILE_SIZE → col * TILE_SIZE ≤ x < col * TILE_SIZE + TILE_SIZE →
  x / TILE_SIZE = col.
Proof.
  intros HT Hx. symmetry.
  apply (Z.div_unique_pos x TILE_SIZE col (x - col * TILE_SIZE)); lia.
Qed.

Lemma elem_of_draw_grid_rect (positions : cells) c x0 y0 w h :
  Rect c x0 y0 w h ∈ draw_grid positions ↔
  c = tile_color ∧ w = TILE_SIZE ∧ h = TILE_SIZE ∧
  ∃ col row, (col, row) ∈ positions ∧
             x0 = col * TILE_SIZE ∧ y0 = row * TILE_SIZE.
Proof.
  unfold draw_grid. rewrite !elem_of_app, !list_elem_of_fmap. split.
  - intros [([col row] & Heq & Hin) | [(row & Heq & _) | (col & Heq & _)]];
      try discriminate.
    injection Heq as -> -> -> -> ->. apply elem_of_elements in Hin.
    repeat split; eauto.
  - intros (-> & -> & -> & col & row & Hin & -> & ->). left.
    exists (col, row). split; [done | by apply elem_of_elements].
Qed.

Lemma elem_of_draw_grid_line (positions : cells) c x1 y1 x2 y2 :
  Line c x1 y1 x2 y2 ∈ draw_grid positions ↔
  c = grid_line_color ∧
  ((∃ row, 0 ≤ row < GRID_HEIGHT ∧ x1 = 0 ∧ y1 = row * TILE_SIZE ∧
           x2 = WIDTH ∧ y2 = row * TILE_SIZE) ∨
   (∃ col, 0 ≤ col < GRID_WIDTH ∧ x1 = col * TILE_SIZE ∧ y1 = 0 ∧
           x2 = col * TILE_SIZE ∧ y2 = HEIGHT)).
Proof.
  unfold draw_grid. rewrite !elem_of_app, !list_elem_of_fmap. split.
  - intros [([col row] & Heq & _) | [(row & Heq & Hin) | (col & Heq & Hin)]];
      try discriminate; injection Heq as -> -> -> -> ->;
      apply elem_of_seqZ in Hin; (split; [done |]).
    + left. exists row. repeat split; lia.
    + right. exists col. repeat split; lia.
  - intros (-> & [(row & Hrow & -> & -> & -> & ->)
                 | (col & Hcol & -> & -> & -> & ->)]); right.
    + left. exists row. split; [done |]. apply elem_of_seqZ. lia.
    + right. exists col. split; [done |]. apply elem_of_seqZ. lia.
Qed.

(** X8: [draw_grid] issues one square of side [TILE_SIZE] per live cell,
    at the cell's column and row times [TILE_SIZE], in the tile colour;
    one horizontal line per row below [GRID_HEIGHT] and one vertical line
    per column below [GRID_WIDTH], across the window, in the line colour;
    and nothing else. *)
Theorem draw_grid_commands (positions : cells) :
  (∀ c x0 y0 w h,
     Rect c x0 y0 w h ∈ draw_grid positions ↔
     c = tile_color ∧ w = TILE_SIZE ∧ h = TILE_SIZE ∧
     ∃ col row, (col, row) ∈ positions ∧
                x0 = col * TILE_SIZE ∧ y0 = row * TILE_SIZE) ∧
  (∀ c x1 y1 x2 y2,
     Line c x1 y1 x2 y2 ∈ draw_grid positions ↔
     c = grid_line_color ∧
     ((∃ row, 0 ≤ row < GRID_HEIGHT ∧ x1 = 0 ∧ y1 = row * TILE_SIZE ∧
              x2 = WIDTH ∧ y2 = row * TILE_SIZE) ∨
      (∃ col, 0 ≤ col < GRID_WIDTH ∧ x1 = col * TILE_SIZE ∧ y1 = 0 ∧
              x2 = col * TILE_SIZE ∧ y2 = HEIGHT))) ∧
  length (draw_grid positions) =
    (size positions + Z.to_nat GRID_HEIGHT + Z.to_nat GRID_WIDTH)%nat.
Proof.
  split; [apply elem_of_draw_grid_rect |].
  split; [apply elem_of_draw_grid_line |].
  unfold draw_grid. rewrite !length_app, !length_fmap, !length_seqZ.
  unfold size, set_size. simpl. lia.
Qed.

(** X6: a pointer press on a pixel that a square of [draw_grid] covers
    removes the cell of that square, which is then drawn no more; a press
    on a pixel whose tile holds no live cell adds that cell, and
    [draw_grid] then issues a square that covers the pixel. *)
Theorem press_and_draw (s : state) (x y : Z) (r : rng) :
  0 < TILE_SIZE →
  (∀ cmd,
     cmd ∈ draw_grid (positions s) → covers cmd x y →
     ∃ c, c ∈ positions s ∧
          handle_event s (MOUSEBUTTONDOWN x y) r =
          inr ({| running := running s; playing := playing s;
                  count := count s; positions := positions s ∖ {[c]} |}, r) ∧
          cmd ∉ draw_grid (positions s ∖ {[c]})) ∧
  ((x / TILE_SIZE, y / TILE_SIZE) ∉ positions s →
   ∃ cmd,
     handle_event s (MOUSEBUTTONDOWN x y) r =
     inr ({| running := running s; playing := playing s; count := count s;
             positions := positions s ∪ {[(x / TILE_SIZE, y / TILE_SIZE)]} |},
          r) ∧
     cmd ∈ draw_grid (positions s ∪ {[(x / TILE_SIZE, y / TILE_SIZE)]}) ∧
     covers cmd x y).
Proof.
  intros HT. split.
  - intros [c x0 y0 w h | c x1 y1 x2 y2] Hcmd Hcov; [| done].
    apply elem_of_draw_grid_rect in Hcmd
      as (-> & -> & -> & col & row & Hin & -> & ->).
    destruct Hcov as [Hx Hy]. exists (col, row). split; [done |].
    split.
    + rewrite handle_pointer_press by lia.
      rewrite (floor_div_tile x col), (floor_div_tile y row) by done.
      unfold toggle. by rewrite decide_True.
    + rewrite elem_of_draw_grid_rect.
      intros (_ & _ & _ & col' & row' & Hin' & Hc & Hr).
      apply elem_of_difference in Hin' as [_ Hne]. apply Hne.
      apply elem_of_singleton. f_equal; nia.
  - intros Hdead.
    exists (Rect tile_color (x / TILE_SIZE * TILE_SIZE)
              (y / TILE_SIZE * TILE_SIZE) TILE_SIZE TILE_SIZE).
    split; [| split].
    + rewrite handle_pointer_press by lia.
      unfold toggle. by rewrite decide_False.
    + apply elem_of_draw_grid_rect. repeat split; try done.
      exists (x / TILE_SIZE), (y / TILE_SIZE). split; [| done].
      apply elem_of_union. right. by apply elem_of_singleton.
    + pose proof (Z.mul_div_le x TILE_SIZE HT).
      pose proof (Z.mul_succ_div_gt x TILE_SIZE HT).
      pose proof (Z.mul_div_le y TILE_SIZE HT).
      pose proof (Z.mul_succ_div_gt y TILE_SIZE HT).
      simpl. lia.
Qed.

(** X7: a press inside the window gives a cell that passes the bounds
    test of [get_neighbors]; when the tile size divides the window size
    the cell is one of the [GRID_WIDTH] by [GRID_HEIGHT] cells shown. *)
Theorem press_lands_on_grid (x y : Z) :
  0 < TILE_SIZE →
  GRID_WIDTH = WIDTH / TILE_SIZE → GRID_HEIGHT = HEIGHT / TILE_SIZE →
  in_window x y →
  in_bounds (x / TILE_SIZE, y / TILE_SIZE) ∧
  ((TILE_SIZE | WIDTH) → (TILE_SIZE | HEIGHT) →
   visible (x / TILE_SIZE, y / TILE_SIZE)).
Proof.
  intros HT HGW HGH [Hx Hy]. unfold in_bounds, visible. cbn [fst snd].
  rewrite HGW, HGH.
  assert (0 ≤ x / TILE_SIZE) by (apply Z.div_pos; lia).
  assert (0 ≤ y / TILE_SIZE) by (apply Z.div_pos; lia).
  split.
  - pose proof (Z.div_le_mono x WIDTH TILE_SIZE HT).
    pose proof (Z.div_le_mono y HEIGHT TILE_SIZE HT). lia.
  - intros [kw Hw] [kh Hh].
    rewrite Hw, Hh, !Z.div_mul by lia.
    split; (split; [done |]); apply Z.div_lt_upper_bound; lia.
Qed.

(** X9: with a window of [GRID_WIDTH] by [GRID_HEIGHT] tiles, a cell is
    one of the cells shown exactly when every pixel of its square is a
    pixel of the window. *)
Theorem visible_iff_square_in_window (col row : Z) :
  0 < TILE_SIZE →
  WIDTH = GRID_WIDTH * TILE_SIZE → HEIGHT = GRID_HEIGHT * TILE_SIZE →
  (visible (col, row) ↔
   ∀ x y, covers (Rect tile_color (col * TILE_SIZE) (row * TILE_SIZE)
                    TILE_SIZE TILE_SIZE) x y →
          in_window x y).
Proof.
  intros HT HW HH. unfold visible, in_window, covers. cbn [fst snd]. split.
  - intros [Hc Hr] x y [Hx Hy]. nia.
  - intros Hwin.
    destruct (Hwin (col * TILE_SIZE) (row * TILE_SIZE)) as [Hx Hy]; [lia |].
    nia.
Qed.

(** ** Births on the inclusive upper bound *)

Lemma column_triple_size (col row : Z) : size (column_triple col row) = 3%nat.
Proof.
  unfold column_triple.
  rewrite !size_union, !size_singleton; [done | |].
  - intros d. rewrite !elem_of_singleton. intros -> Heq.
    injection Heq. lia.
  - intros d. rewrite elem_of_union, !elem_of_singleton.
    intros [-> | ->] Heq; injection Heq; lia.
Qed.

Lemma live_count_all_neighbors (positions : cells) (c : cell) :
  (∀ p, p ∈ positions → p ∈ get_neighbors c) →
  live_count positions c = size positions.
Proof.
  intros Hall. unfold live_count.
  assert (Hnd : NoDup (live_neighbors positions c)).
  { unfold live_neighbors. apply NoDup_filter, NoDup_get_neighbors. }
  rewrite <- (size_list_to_set (C:=cells)) by done. f_equal.
  apply leibniz_equiv. intros p.
  rewrite elem_of_list_to_set, elem_of_live_neighbors. split; [tauto |].
  intros Hp. split; [done | by apply Hall].
Qed.

(** X10: three live cells stacked in the last column shown give birth to
    the cell beside them in column [GRID_WIDTH], which is not one of the
    cells shown; with a window of [GRID_WIDTH] tiles across, [draw_grid]
    draws that cell's square wholly outside the window. *)
Theorem boundary_birth (row : Z) :
  1 ≤ GRID_WIDTH → 1 ≤ row → row + 1 < GRID_HEIGHT →
  (∀ p, p ∈ column_triple (GRID_WIDTH - 1) row → visible p) ∧
  (GRID_WIDTH, row) ∈ adjust_grid (column_triple (GRID_WIDTH - 1) row) ∧
  ¬ visible (GRID_WIDTH, row) ∧
  (0 < TILE_SIZE → WIDTH = GRID_WIDTH * TILE_SIZE →
   ∃ cmd,
     cmd ∈ draw_grid (adjust_grid (column_triple (GRID_WIDTH - 1) row)) ∧
     covers cmd (GRID_WIDTH * TILE_SIZE) (row * TILE_SIZE) ∧
     ∀ x y, covers cmd x y → ¬ in_window x y).
Proof.
  intros HW Hrow Hrow'.
  assert (Hborn : (GRID_WIDTH, row)
                    ∈ adjust_grid (column_triple (GRID_WIDTH - 1) row)).
  { apply elem_of_adjust_grid. right. split.
    - exists (GRID_WIDTH - 1, row). split.
      + unfold column_triple. rewrite !elem_of_union, !elem_of_singleton.
        auto.
      + apply elem_of_get_neighbors. exists 1, 0. unfold offset.
        repeat split; try lia. f_equal; lia.
    - rewrite live_count_all_neighbors; [apply column_triple_size |].
      intros p. unfold column_triple.
      rewrite !elem_of_union, !elem_of_singleton.
      intros [[-> | ->] | ->]; apply elem_of_get_neighbors;
        [exists (-1), (-1) | exists (-1), 0 | exists (-1), 1];
        unfold offset; repeat split; try lia; f_equal; lia. }
  split; [| split; [exact Hborn | split]].
  - intros p. unfold column_triple, visible.
    rewrite !elem_of_union, !elem_of_singleton.
    intros [[-> | ->] | ->]; cbn [fst snd]; lia.
  - unfold visible. cbn [fst snd]. lia.
  - intros HT HWIDTH.
    exists (Rect tile_color (GRID_WIDTH * TILE_SIZE) (row * TILE_SIZE)
              TILE_SIZE TILE_SIZE).
    split; [| split].
    + apply elem_of_draw_grid_rect. repeat split; try done. eauto.
    + simpl. lia.
    + intros x y [Hx _] [Hwin _]. lia.
Qed.

(** ** Edge cases of [gen] and the randomize key *)

Lemma randrange_inv lo hi r v r' :
  randrange lo hi r = inr (v, r') → lo ≤ v < hi.
Proof.
  unfold randrange. case_decide as Hlt; [| done].
  intros Heq. injection Heq as <- _.
  pose proof (Z.mod_pos_bound (r 0%nat) (hi - lo)). lia.
Qed.

Lemma draw_cells_inv n : ∀ r l r',
  draw_cells n r = inr (l, r') → length l = n ∧ Forall drawn l.
Proof.
  induction n as [| n IH]; intros r l r' Hd.
  - injection Hd as <- _. split; [done | constructor].
  - cbn [draw_cells] in Hd.
    apply rand_bind_inv in Hd as (a & r1 & Ha & Hd).
    apply rand_bind_inv in Hd as (b & r2 & Hb & Hd).
    apply rand_bind_inv in Hd as (rest & r3 & Hrest & Hd).
    injection Hd as <- _. apply randrange_inv in Ha, Hb.
    destruct (IH _ _ _ Hrest) as [Hlen Hall].
    split; [simpl; by rewrite Hlen |]. constructor; [by split | done].
Qed.

(** X12: [gen] of a count of zero or less returns the empty set and draws
    nothing; [gen] of a positive count on a grid with a dimension of zero
    or less raises [ValueError]. *)
Theorem gen_edge_cases :
  (∀ num r, num ≤ 0 → gen num r = inr (∅, r)) ∧
  (∀ num r, 0 < num → GRID_HEIGHT ≤ 0 ∨ GRID_WIDTH ≤ 0 →
            gen num r = inl ValueError).
Proof.
  split.
  - intros num r Hnum. unfold gen.
    replace (Z.to_nat num) with 0%nat by lia. done.
  - intros num r Hnum Hdim. unfold gen.
    destruct (Z.to_nat num) as [| n] eqn:Hn; [lia |].
    cbn [draw_cells]. unfold mbind, rand_bind, randrange.
    destruct (decide (0 < GRID_HEIGHT)); [| done].
    by rewrite decide_False by lia.
Qed.

(** X11: on a grid of positive dimensions the randomize key leaves a live
    set that is not empty and has at most 9 * GRID_WIDTH cells, and changes
    nothing else; on a square grid each of its cells is one of the cells
    shown. *)
Theorem randomize_result (s : state) (r : rng) :
  0 < GRID_WIDTH → 0 < GRID_HEIGHT →
  ∃ live r',
    handle_event s (KEYDOWN K_g) r =
    inr ({| running := running s; playing := playing s; count := count s;
            positions := live |}, r') ∧
    live ≠ ∅ ∧
    Z.of_nat (size live) ≤ 9 * GRID_WIDTH ∧
    (GRID_WIDTH = GRID_HEIGHT → ∀ c, c ∈ live → visible c).
Proof.
  intros HW HH.
  destruct (randrange_inr 4 10 r) as (k & Hk & Hkb); [lia |].
  destruct (draw_cells_inr (Z.to_nat (k * GRID_WIDTH)) (fun n => r (S n))
              HW HH) as (l & r' & Hl & Hlen & Hall).
  exists (list_to_set l), r'. split; [| split; [| split]].
  - cbn [handle_event]. rewrite (rand_bind_inr _ _ _ _ _ Hk).
    unfold gen. rewrite (rand_bind_inr _ _ _ (list_to_set l) r'); [done |].
    by rewrite (rand_bind_inr _ _ _ _ _ Hl).
  - destruct l as [| c l]; [simpl in Hlen; nia |].
    intros Hempty. apply (not_elem_of_empty (C:=cells) c).
    rewrite <- Hempty. apply elem_of_list_to_set, elem_of_cons. by left.
  - pose proof (size_list_to_set_le l). nia.
  - intros Hsq c Hc. apply elem_of_list_to_set in Hc.
    rewrite Forall_forall in Hall. destruct (Hall c Hc) as [Ha Hb].
    unfold visible. lia.
Qed.

(** ** Runs of the loop of [main] *)

Lemma main_loop_stopped frames s r :
  running s = false → main_loop frames s r = inr ((s, 0%nat), r).
Proof. intros Hr. destruct frames; [done |]. cbn [main_loop]. by rewrite Hr. Qed.

(** Running the loop over [fs1 ++ fs2] is running it over [fs1] and then
    over [fs2]; the calls of [adjust_grid] add up. *)
Lemma main_loop_app fs1 : ∀ fs2 s r s1 n1 r1,
  main_loop fs1 s r = inr ((s1, n1), r1) →
  main_loop (fs1 ++ fs2) s r =
  (r2 ← main_loop fs2 s1; mret (r2.1, (n1 + r2.2)%nat)) r1.
Proof.
  induction fs1 as [| events fs1 IH]; intros fs2 s r s1 n1 r1 Hrun.
  - injection Hrun as <- <- <-. cbn [app]. unfold mbind, rand_bind.
    by destruct (main_loop fs2 s r) as [e | [[s2 n2] r2]].
  - cbn [app main_loop] in *. destruct (running s) eqn:Hr.
    + apply rand_bind_inv in Hrun as ([sa na] & ra & Hit & Hrun).
      apply rand_bind_inv in Hrun as ([sb nb] & rb & Hrest & Hrun).
      cbn [fst snd] in *. injection Hrun as <- <- <-.
      unfold mbind, rand_bind at 1. rewrite Hit. cbn [fst snd].
      unfold mbind, rand_bind at 1.
      rewrite (IH fs2 sa ra sb nb rb Hrest).
      unfold mbind, rand_bind.
      destruct (main_loop fs2 sb rb) as [e | [[s2 n2] r2]]; [done |].
      unfold mret, rand_ret. cbn [fst snd]. by rewrite Nat.add_assoc.
    + injection Hrun as <- <- <-.
      unfold mbind, rand_bind.
      by rewrite (main_loop_stopped fs2 s r Hr).
Qed.

Lemma handle_event_running s e r s' r' :
  handle_event s e r = inr (s', r') →
  running s' = match e with QUIT => false | _ => running s end.
Proof.
  destruct e as [| x y | [| | |] |]; cbn [handle_event]; intros He;
    try (injection He as <- _; done).
  - apply rand_bind_inv in He as (col & r1 & _ & He).
    apply rand_bind_inv in He as (row & r2 & _ & He).
    by injection He as <- _.
  - apply rand_bind_inv in He as (k & r1 & _ & He).
    apply rand_bind_inv in He as (live & r2 & _ & He).
    by injection He as <- _.
Qed.

Lemma foldM_stays_stopped events : ∀ s r s' r',
  running s = false → foldM handle_event s events r = inr (s', r') →
  running s' = false.
Proof.
  induction events as [| e events IH]; intros s r s' r' Hs Hf.
  - by injection Hf as <- _.
  - cbn [foldM] in Hf. apply rand_bind_inv in Hf as (s1 & r1 & He & Hf).
    apply handle_event_running in He. apply (IH s1 r1 s' r'); [| done].
    rewrite He. by destruct e.
Qed.

Lemma foldM_quit events : ∀ s r s' r',
  QUIT ∈ events → foldM handle_event s events r = inr (s', r') →
  running s' = false.
Proof.
  induction events as [| e events IH]; intros s r s' r' Hq Hf.
  - by apply elem_of_nil in Hq.
  - cbn [foldM] in Hf. apply rand_bind_inv in Hf as (s1 & r1 & He & Hf).
    apply elem_of_cons in Hq as [<- | Hq].
    + apply handle_event_running in He.
      by apply (foldM_stays_stopped events s1 r1 s' r').
    + by apply (IH s1 r1 s' r').
Qed.

(** X13: a frame that holds a [QUIT] event is the last one: the frames
    that follow change neither the state nor the number of calls of
    [adjust_grid]. *)
Theorem quit_ends_loop frames1 events frames2 : ∀ s r,
  QUIT ∈ events →
  main_loop (frames1 ++ events :: frames2) s r =
  main_loop (frames1 ++ [events]) s r.
Proof.
  intros s r Hq. revert s r.
  induction frames1 as [| f frames1 IH]; intros s r.
  - cbn [app main_loop]. destruct (running s); [| done].
    unfold mbind, rand_bind.
    destruct (iteration s events r) as [e | [[s1 n1] r1]] eqn:Hit; [done |].
    cbn [fst snd].
    assert (Hstop : running s1 = false).
    { unfold iteration in Hit. destruct (clock s) as [s0 fired].
      apply rand_bind_inv in Hit as (s2 & r2 & Hf & Hret).
      injection Hret as <- _ _. by apply (foldM_quit events s0 r s2 r2). }
    by rewrite (main_loop_stopped frames2 s1 r1 Hstop).
  - cbn [app main_loop]. destruct (running s); [| done].
    unfold mbind, rand_bind.
    destruct (iteration s f r) as [e | [[s1 n1] r1]]; [done |].
    cbn [fst snd]. by rewrite IH.
Qed.

Lemma iteration_count_bound s events r s1 n1 r1 :
  0 ≤ count s → iteration s events r = inr ((s1, n1), r1) →
  0 ≤ count s1 ∧ update_freq * Z.of_nat n1 + count s1 ≤ count s + 1.
Proof.
  intros H0 Hit. unfold iteration in Hit.
  assert (Hclock : 0 ≤ count (clock s).1 ∧
            update_freq * Z.of_nat (clock s).2 + count (clock s).1
            ≤ count s + 1).
  { unfold clock, update_freq.
    destruct (playing s); case_decide; cbn [fst snd count]; lia. }
  destruct (clock s) as [s0 fired]. cbn [fst snd] in Hclock.
  apply rand_bind_inv in Hit as (s2 & r2 & Hf & Hret).
  injection Hret as <- <- _. apply foldM_handle_event_count in Hf. lia.
Qed.

Lemma main_loop_inr frames :
  0 < GRID_WIDTH → 0 < GRID_HEIGHT → TILE_SIZE ≠ 0 →
  ∀ s r, ∃ s' n r', main_loop frames s r = inr ((s', n), r').
Proof.
  intros HW HH HT. induction frames as [| events frames IH]; intros s r.
  - by exists s, 0%nat, r.
  - cbn [main_loop]. destruct (running s); [| by exists s, 0%nat, r].
    destruct (iteration_inr HW HH HT s events r) as (s1 & r1 & Hit & _).
    destruct (IH s1 r1) as (s' & n & r' & Hrest).
    exists s', ((clock s).2 + n)%nat, r'.
    rewrite (rand_bind_inr _ _ _ _ _ Hit). cbn [fst snd].
    by rewrite (rand_bind_inr _ _ _ _ _ Hrest).
Qed.

Lemma main_loop_rate frames : ∀ s r s' n r',
  0 ≤ count s → main_loop frames s r = inr ((s', n), r') →
  0 ≤ count s' ∧
  update_freq * Z.of_nat n + count s' ≤ count s + Z.of_nat (length frames).
Proof.
  induction frames as [| events frames IH]; intros s r s' n r' H0 Hrun.
  - injection Hrun as <- <- _. simpl. lia.
  - cbn [main_loop] in Hrun. destruct (running s).
    + apply rand_bind_inv in Hrun as ([s1 n1] & r1 & Hit & Hrun).
      apply rand_bind_inv in Hrun as ([s2 n2] & r2 & Hrest & Hrun).
      cbn [fst snd] in *. injection Hrun as <- <- _.
      destruct (iteration_count_bound _ _ _ _ _ _ H0 Hit) as [H1 Hb1].
      destruct (IH _ _ _ _ _ H1 Hrest) as [H2 Hb2].
      cbn [length]. unfold update_freq in *. lia.
    + injection Hrun as <- <- _. cbn [length]. unfold update_freq. lia.
Qed.

(** X14: [adjust_grid] is never called more often than once in
    [update_freq] frames: over any frames and events, from a counter of
    at least 0, [update_freq] times the number of calls plus the counter
    left is at most the counter at the start plus the number of frames. *)
Theorem advance_rate frames s r :
  0 < GRID_WIDTH → 0 < GRID_HEIGHT → TILE_SIZE ≠ 0 →
  0 ≤ count s →
  ∃ s' n r',
    main_loop frames s r = inr ((s', n), r') ∧
    0 ≤ count s' ∧
    update_freq * Z.of_nat n + count s'
    ≤ count s + Z.of_nat (length frames).
Proof.
  intros HW HH HT H0.
  destruct (main_loop_inr frames HW HH HT s r) as (s' & n & r' & Hrun).
  exists s', n, r'. split; [done |].
  by apply (main_loop_rate frames s r s' n r').
Qed.

Lemma adjust_grid_on_grid (positions : cells) :
  on_grid positions → on_grid (adjust_grid positions).
Proof.
  intros Hgrid c Hc. apply elem_of_adjust_grid in Hc.
  destruct Hc as [[Hc _] | [(p & _ & Hc) _]]; [by apply Hgrid |].
  exact (get_neighbors_in_bounds p c Hc).
Qed.

Lemma press_in_bounds (x y : Z) :
  0 < TILE_SIZE →
  GRID_WIDTH = WIDTH / TILE_SIZE → GRID_HEIGHT = HEIGHT / TILE_SIZE →
  in_window x y → in_bounds (x / TILE_SIZE, y / TILE_SIZE).
Proof.
  intros HT HGW HGH [Hx Hy]. unfold in_bounds. cbn [fst snd].
  rewrite HGW, HGH.
  pose proof (Z.div_pos x TILE_SIZE). pose proof (Z.div_pos y TILE_SIZE).
  pose proof (Z.div_le_mono x WIDTH TILE_SIZE HT).
  pose proof (Z.div_le_mono y HEIGHT TILE_SIZE HT). lia.
Qed.

Section OnGrid.

Hypothesis tile_pos : 0 < TILE_SIZE.
Hypothesis grid_width_def : GRID_WIDTH = WIDTH / TILE_SIZE.
Hypothesis grid_height_def : GRID_HEIGHT = HEIGHT / TILE_SIZE.
Hypothesis square : GRID_WIDTH = GRID_HEIGHT.

Lemma handle_event_on_grid s e r s' r' :
  event_in_window e → on_grid (positions s) →
  handle_event s e r = inr (s', r') → on_grid (positions s').
Proof.
  intros Hwin Hgrid.
  destruct e as [| x y | [| | |] |]; cbn [handle_event]; intros He;
    try (injection He as <- _; cbn [positions]; done).
  - change (handle_event s (MOUSEBUTTONDOWN x y) r = inr (s', r')) in He.
    rewrite handle_pointer_press in He by lia. injection He as <- _.
    cbn [positions]. intros d Hd. apply elem_of_toggle in Hd.
    destruct Hd as [[Hd _] | [-> _]]; [by apply Hgrid |].
    by apply press_in_bounds.
  - apply rand_bind_inv in He as (k & r1 & _ & He).
    apply rand_bind_inv in He as (live & r2 & Hg & He).
    injection He as <- _. cbn [positions]. unfold gen in Hg.
    apply rand_bind_inv in Hg as (l & r3 & Hl & Hg).
    injection Hg as <- _. apply draw_cells_inv in Hl as [_ Hall].
    intros d Hd. apply elem_of_list_to_set in Hd.
    rewrite Forall_forall in Hall. destruct (Hall d Hd) as [Ha Hb].
    unfold in_bounds. lia.
Qed.

Lemma foldM_on_grid events : ∀ s r s' r',
  Forall event_in_window events → on_grid (positions s) →
  foldM handle_event s events r = inr (s', r') → on_grid (positions s').
Proof.
  induction events as [| e events IH]; intros s r s' r' Hwin Hgrid Hf.
  - by injection Hf as <- _.
  - cbn [foldM] in Hf. apply rand_bind_inv in Hf as (s1 & r1 & He & Hf).
    apply Forall_cons in Hwin as [He_win Hwin].
    apply (IH s1 r1 s' r'); [done | | done].
    by apply (handle_event_on_grid s e r s1 r1).
Qed.

Lemma iteration_on_grid s events r s' n r' :
  Forall event_in_window events → on_grid (positions s) →
  iteration s events r = inr ((s', n), r') → on_grid (positions s').
Proof.
  intros Hwin Hgrid Hit. unfold iteration in Hit.
  assert (Hclock : on_grid (positions (clock s).1)).
  { unfold clock. case_decide; cbn [fst positions]; [| done].
    by apply adjust_grid_on_grid. }
  destruct (clock s) as [s0 fired]. cbn [fst] in Hclock.
  apply rand_bind_inv in Hit as (s2 & r2 & Hf & Hret).
  injection Hret as <- _ _. by apply (foldM_on_grid events s0 r s2 r2).
Qed.

Lemma main_loop_on_grid frames : ∀ s r s' n r',
  Forall (Forall event_in_window) frames → on_grid (positions s) →
  main_loop frames s r = inr ((s', n), r') → on_grid (positions s').
Proof.
  induction frames as [| events frames IH]; intros s r s' n r' Hwin Hgrid Hrun.
  - by injection Hrun as <- _ _.
  - cbn [main_loop] in Hrun. destruct (running s).
    + apply rand_bind_inv in Hrun as ([s1 n1] & r1 & Hit & Hrun).
      apply rand_bind_inv in Hrun as ([s2 n2] & r2 & Hrest & Hrun).
      cbn [fst snd] in *. injection Hrun as <- _ _.
      apply Forall_cons in Hwin as [Hev Hwin].
      apply (IH s1 r1 s2 n2 r2); [done | | done].
      by apply (iteration_on_grid s events r s1 n1 r1).
    + by injection Hrun as <- _ _.
Qed.

End OnGrid.

(** X15: on a square grid whose dimensions are the window size divided by
    the tile size, with pointer presses inside the window, a run of the
    loop that starts with every live cell inside
    [0, GRID_WIDTH] x [0, GRID_HEIGHT] ends with every live cell inside it:
    presses, the randomize key and [adjust_grid] never put a cell
    elsewhere. *)
Theorem live_cells_stay_on_grid frames s r :
  0 < TILE_SIZE →
  GRID_WIDTH = WIDTH / TILE_SIZE → GRID_HEIGHT = HEIGHT / TILE_SIZE →
  GRID_WIDTH = GRID_HEIGHT → 0 < GRID_WIDTH →
  Forall (Forall event_in_window) frames →
  on_grid (positions s) →
  ∃ s' n r',
    main_loop frames s r = inr ((s', n), r') ∧ on_grid (positions s').
Proof.
  intros HT HGW HGH Hsq HW Hwin Hgrid.
  destruct (main_loop_inr frames HW ltac:(lia) ltac:(lia) s r)
    as (s' & n & r' & Hrun).
  exists s', n, r'. split; [done |].
  by apply (main_loop_on_grid HT HGW HGH Hsq frames s r s' n r').
Qed.

(** X16: a pause of any length keeps the counter: from a running state,
    a frame with the run-toggle key, any number of frames without events
    and another frame with the run-toggle key leave the state running
    with the counter one above where it was, and call [adjust_grid] zero
    times. *)
Theorem pause_keeps_counter (m : nat) (live : cells) (c : Z) (r : rng) :
  c + 1 < update_freq →
  main_loop ([KEYDOWN K_SPACE] :: ticks m ++ [[KEYDOWN K_SPACE]])
    {| running := true; playing := true; count := c; positions := live |} r
  = inr (({| running := true; playing := true; count := c + 1;
             positions := live |}, 0%nat), r).
Proof.
  intros Hc.
  pose (paused := {| running := true; playing := false; count := c + 1;
                     positions := live |}).
  assert (Hresume : main_loop [[KEYDOWN K_SPACE]] paused r =
            inr (({| running := true; playing := true; count := c + 1;
                     positions := live |}, 0%nat), r)).
  { cbn [main_loop running paused]. unfold iteration.
    rewrite clock_paused by done. done. }
  assert (Hwait : main_loop (ticks m ++ [[KEYDOWN K_SPACE]]) paused r =
            inr (({| running := true; playing := true; count := c + 1;
                     positions := live |}, 0%nat), r)).
  { rewrite (main_loop_app (ticks m) [[KEYDOWN K_SPACE]] paused r
               paused 0%nat r) by (by apply main_loop_paused).
    by rewrite (rand_bind_inr _ _ _ _ _ Hresume). }
  cbn [main_loop running].
  rewrite (rand_bind_inr _ _ r (paused, 0%nat) r).
  - cbn [fst snd]. by rewrite (rand_bind_inr _ _ _ _ _ Hwait).
  - unfold iteration. rewrite clock_running_below by done. done.
Qed.

(** X17: while running without events, [N] frames from a counter [c]
    call [adjust_grid] (c + N) div update_freq times, each call on the
    result of the one before, and leave the counter at
    (c + N) mod update_freq. *)
Theorem running_generations (N : nat) : ∀ (live : cells) (c : Z) (r : rng),
  0 ≤ c < update_freq →
  main_loop (ticks N)
    {| running := true; playing := true; count := c; positions := live |} r
  = inr (({| running := true; playing := true;
             count := (c + Z.of_nat N) `mod` update_freq;
             positions :=
               Nat.iter (Z.to_nat ((c + Z.of_nat N) `div` update_freq))
                 adjust_grid live |},
          Z.to_nat ((c + Z.of_nat N) `div` update_freq)), r).
Proof.
  unfold update_freq.
  induction N as [| N IH]; intros live c r Hc.
  - cbn [ticks replicate main_loop]. unfold mret, rand_ret.
    rewrite Z.add_0_r, Z.mod_small, Z.div_small by lia. done.
  - change (ticks (S N)) with ([] :: ticks N). cbn [main_loop running].
    destruct (decide (c + 1 < 120)) as [Hlt | Hge].
    + rewrite (rand_bind_inr _ _ r
        ({| running := true; playing := true; count := c + 1;
            positions := live |}, 0%nat) r).
      2:{ rewrite iteration_no_events, clock_running_below;
            cbn [playing count]; unfold update_freq; [done | done | lia]. }
      cbn [fst snd].
      rewrite (rand_bind_inr _ _ _ _ _ (IH live (c + 1) r ltac:(lia))).
      replace (c + 1 + Z.of_nat N) with (c + Z.of_nat (S N)) by lia. done.
    + assert (c = 119) as -> by lia.
      rewrite (rand_bind_inr _ _ r
        ({| running := true; playing := true; count := 0;
            positions := adjust_grid live |}, 1%nat) r).
      2:{ rewrite iteration_no_events, clock_running_fire;
            cbn [playing count]; unfold update_freq; [done | done | lia]. }
      cbn [fst snd].
      rewrite (rand_bind_inr _ _ _ _ _ (IH (adjust_grid live) 0 r ltac:(lia))).
      replace (119 + Z.of_nat (S N)) with (0 + Z.of_nat N + 1 * 120) by lia.
      rewrite Z_div_plus_full, Z_mod_plus_full by lia.
      assert (0 ≤ (0 + Z.of_nat N) `div` 120) by (apply Z.div_pos; lia).
      replace (Z.to_nat ((0 + Z.of_nat N) `div` 120 + 1))
        with (S (Z.to_nat ((0 + Z.of_nat N) `div` 120))) by lia.
      unfold mret, rand_ret. cbn [fst snd]. rewrite Nat.iter_succ_r. done.
Qed.

End Engine.

(** ** Grids wide enough for a pattern

    Two grids on which every live cell is at least two cells away from
    the upper bounds give the same next generation: the bounds test of
    [get_neighbors] then never fires on the high side. *)

Lemma get_neighbors_wide (W1 H1 W2 H2 x y : Z) :
  x + 1 ≤ W1 → x + 1 ≤ W2 → y + 1 ≤ H1 → y + 1 ≤ H2 →
  get_neighbors W1 H1 (x, y) = get_neighbors W2 H2 (x, y).
Proof.
  intros HW1 HW2 HH1 HH2. unfold get_neighbors, neighbors_row.
  cbn [flat_map].
  repeat match goal with
  | |- context [?a >? ?b] => destruct (Z.gtb_spec a b); try (exfalso; lia)
  end.
  reflexivity.
Qed.

Lemma adjust_grid_wide (W1 H1 W2 H2 : Z) (live : cells) :
  (∀ p, p ∈ live →
        p.1 + 2 ≤ W1 ∧ p.1 + 2 ≤ W2 ∧ p.2 + 2 ≤ H1 ∧ p.2 + 2 ≤ H2) →
  adjust_grid W1 H1 live = adjust_grid W2 H2 live.
Proof.
  intros Hfar.
  assert (Hlive : ∀ p, p ∈ live →
            get_neighbors W1 H1 p = get_neighbors W2 H2 p).
  { intros [px py] Hp. destruct (Hfar _ Hp) as (? & ? & ? & ?).
    cbn [fst snd] in *. apply get_neighbors_wide; lia. }
  assert (Hcand : ∀ c, candidate W1 H1 live c ↔ candidate W2 H2 live c).
  { intros c. unfold candidate.
    split; intros (p & Hp & Hc); exists p; (split; [done |]);
      [rewrite <- Hlive | rewrite Hlive]; done. }
  assert (Hnear : ∀ c, candidate W1 H1 live c →
            get_neighbors W1 H1 c = get_neighbors W2 H2 c).
  { intros [cx cy] ([px py] & Hp & Hc).
    destruct (Hfar _ Hp) as (? & ? & ? & ?). cbn [fst snd] in *.
    apply elem_of_get_neighbors in Hc
      as (dx & dy & Hdx & Hdy & _ & _ & _ & Hc).
    injection Hc as -> ->. unfold offset in *.
    apply get_neighbors_wide; lia. }
  apply leibniz_equiv. intros c. rewrite !elem_of_adjust_grid.
  unfold live_count, live_neighbors. rewrite <- Hcand. split.
  - intros [[Hc Hn] | [Hc Hn]].
    + left. by rewrite <- (Hlive c Hc).
    + right. by rewrite <- (Hnear c Hc).
  - intros [[Hc Hn] | [Hc Hn]].
    + left. by rewrite (Hlive c Hc).
    + right. by rewrite (Hnear c Hc).
Qed.

(** C6: on a grid of at least 5 by 5 cells the horizontal blinker goes to
    the vertical one and the vertical one back to the horizontal one. *)
Theorem blinker_period_2 GRID_WIDTH GRID_HEIGHT :
  5 ≤ GRID_WIDTH → 5 ≤ GRID_HEIGHT →
  adjust_grid GRID_WIDTH GRID_HEIGHT blinker_h = blinker_v ∧
  adjust_grid GRID_WIDTH GRID_HEIGHT blinker_v = blinker_h.
Proof.
  intros HW HH. split.
  - rewrite (adjust_grid_wide GRID_WIDTH GRID_HEIGHT 5 5).
    + vm_compute. reflexivity.
    + intros p. unfold blinker_h.
      rewrite !elem_of_union, !elem_of_singleton.
      intros [[-> | ->] | ->]; cbn [fst snd]; lia.
  - rewrite (adjust_grid_wide GRID_WIDTH GRID_HEIGHT 5 5).
    + vm_compute. reflexivity.
    + intros p. unfold blinker_v.
      rewrite !elem_of_union, !elem_of_singleton.
      intros [[-> | ->] | ->]; cbn [fst snd]; lia.
Qed.

(** ** The theorems at the constants of [main.py] *)

Ltac by_evaluation := vm_compute; first [reflexivity | exact I].

Ltac decide_by_evaluation :=
  apply (bool_decide_unpack _); by_evaluation.

(** On the 40 by 40 grid the cell (-1, 5) has the three live neighbors
    (0, 4), (0, 5) and (0, 6), and the next generation does not hold it:
    [get_neighbors] never returns a cell left of column 0. *)
Lemma birth_rule_fails_outside :
  live_count MainPy.GRID_WIDTH MainPy.GRID_HEIGHT left_edge_column (-1, 5)
  = 3%nat ∧
  (-1, 5) ∉ adjust_grid MainPy.GRID_WIDTH MainPy.GRID_HEIGHT left_edge_column.
Proof. split; [by_evaluation | decide_by_evaluation]. Qed.

Lemma birth_rule_witness :
  in_bounds MainPy.GRID_WIDTH MainPy.GRID_HEIGHT (2, 1) ∧
  live_count MainPy.GRID_WIDTH MainPy.GRID_HEIGHT blinker_h (2, 1) = 3%nat ∧
  (2, 1) ∈ adjust_grid MainPy.GRID_WIDTH MainPy.GRID_HEIGHT blinker_h.
Proof.
  assert (Hb : in_bounds MainPy.GRID_WIDTH MainPy.GRID_HEIGHT (2, 1)).
  { split; split; by_evaluation || (intros ?; discriminate). }
  split; [exact Hb |]. split; [by_evaluation |].
  apply (birth_rule MainPy.GRID_WIDTH MainPy.GRID_HEIGHT blinker_h (2, 1)).
  - right. exact Hb.
  - by_evaluation.
Defined.

Lemma survival_rule_witness :
  (2, 2) ∈ blinker_h ∧
  live_count MainPy.GRID_WIDTH MainPy.GRID_HEIGHT blinker_h (2, 2) = 2%nat ∧
  (2, 2) ∈ adjust_grid MainPy.GRID_WIDTH MainPy.GRID_HEIGHT blinker_h.
Proof.
  assert (Hin : (2, 2) ∈ blinker_h) by decide_by_evaluation.
  split; [exact Hin |]. split; [by_evaluation |].
  apply (survival_rule MainPy.GRID_WIDTH MainPy.GRID_HEIGHT blinker_h (2, 2)).
  - exact Hin.
  - left. by_evaluation.
Defined.

Lemma death_rule_witness :
  ((1, 2) ∈ blinker_h ∧
   live_count MainPy.GRID_WIDTH MainPy.GRID_HEIGHT blinker_h (1, 2) = 1%nat ∧
   (1, 2) ∉ adjust_grid MainPy.GRID_WIDTH MainPy.GRID_HEIGHT blinker_h) ∧
  (((0, 0) ∉ blinker_h) ∧
   live_count MainPy.GRID_WIDTH MainPy.GRID_HEIGHT blinker_h (0, 0) = 0%nat ∧
   (0, 0) ∉ adjust_grid MainPy.GRID_WIDTH MainPy.GRID_HEIGHT blinker_h).
Proof.
  assert (Hin : (1, 2) ∈ blinker_h) by decide_by_evaluation.
  assert (Hout : (0, 0) ∉ blinker_h) by decide_by_evaluation.
  split; (split; [done |]); (split; [by_evaluation |]).
  - apply (proj1 (death_rule MainPy.GRID_WIDTH MainPy.GRID_HEIGHT
                    blinker_h (1, 2)) Hin);
      intros Heq; vm_compute in Heq; discriminate.
  - apply (proj2 (death_rule MainPy.GRID_WIDTH MainPy.GRID_HEIGHT
                    blinker_h (0, 0)) Hout).
    intros Heq; vm_compute in Heq; discriminate.
Defined.

Lemma get_neighbors_contract_witness :
  (0 < 5 < MainPy.GRID_WIDTH ∧ 0 < 5 < MainPy.GRID_HEIGHT) ∧
  get_neighbors MainPy.GRID_WIDTH MainPy.GRID_HEIGHT (5, 5) =
  [(4, 4); (4, 5); (4, 6); (5, 4); (5, 6); (6, 4); (6, 5); (6, 6)].
Proof.
  assert (Hx : 0 < 5 < MainPy.GRID_WIDTH) by (split; by_evaluation).
  assert (Hy : 0 < 5 < MainPy.GRID_HEIGHT) by (split; by_evaluation).
  split; [by split |].
  exact (proj2 (proj2 (proj2 (get_neighbors_contract
           MainPy.GRID_WIDTH MainPy.GRID_HEIGHT 5 5))) Hx Hy).
Defined.

Lemma clock_cadence_witness :
  (playing initial = false ∧ counter_ok initial ∧
   main_loop MainPy.GRID_WIDTH MainPy.GRID_HEIGHT MainPy.TILE_SIZE
     (ticks 119) initial zero_draws = inr ((initial, 0%nat), zero_draws)) ∧
  main_loop MainPy.GRID_WIDTH MainPy.GRID_HEIGHT MainPy.TILE_SIZE
    (ticks 120) running_from_zero zero_draws
  = inr (({| running := true; playing := true; count := 0;
             positions := adjust_grid MainPy.GRID_WIDTH MainPy.GRID_HEIGHT
                            blinker_h |}, 1%nat), zero_draws).
Proof.
  assert (Hok : counter_ok initial) by (split; by_evaluation || (intros ?; discriminate)).
  pose proof (clock_cadence MainPy.GRID_WIDTH MainPy.GRID_HEIGHT
                MainPy.TILE_SIZE) as (Hpaused & Hrunning & _).
  split.
  - split; [reflexivity |]. split; [exact Hok |].
    apply (Hpaused initial 119%nat zero_draws); [reflexivity | exact Hok |].
    by_evaluation.
  - exact (proj2 (Hrunning running_from_zero zero_draws
                    eq_refl eq_refl eq_refl)).
Defined.

Lemma blinker_period_2_witness :
  (5 ≤ MainPy.GRID_WIDTH ∧ 5 ≤ MainPy.GRID_HEIGHT) ∧
  adjust_grid MainPy.GRID_WIDTH MainPy.GRID_HEIGHT blinker_h = blinker_v ∧
  adjust_grid MainPy.GRID_WIDTH MainPy.GRID_HEIGHT blinker_v = blinker_h.
Proof.
  assert (HW : 5 ≤ MainPy.GRID_WIDTH) by (intros ?; discriminate).
  assert (HH : 5 ≤ MainPy.GRID_HEIGHT) by (intros ?; discriminate).
  split; [by split |].
  exact (blinker_period_2 MainPy.GRID_WIDTH MainPy.GRID_HEIGHT HW HH).
Defined.

Lemma toggle_self_inverse_witness :
  MainPy.TILE_SIZE ≠ 0 ∧
  toggle (1, 2) (toggle (1, 2) blinker_h) = blinker_h ∧
  (s1 ← handle_event MainPy.GRID_WIDTH MainPy.GRID_HEIGHT MainPy.TILE_SIZE
         about_to_fire (MOUSEBUTTONDOWN 30 50);
   handle_event MainPy.GRID_WIDTH MainPy.GRID_HEIGHT MainPy.TILE_SIZE
     s1 (MOUSEBUTTONDOWN 30 50)) zero_draws
  = inr (about_to_fire, zero_draws).
Proof.
  assert (HT : MainPy.TILE_SIZE ≠ 0) by (intros ?; discriminate).
  pose proof (toggle_self_inverse MainPy.GRID_WIDTH MainPy.GRID_HEIGHT
                MainPy.TILE_SIZE blinker_h (1, 2)) as (Htwice & _ & Hpress).
  split; [exact HT |]. split; [exact Htwice |].
  exact (Hpress about_to_fire 30 50 zero_draws HT).
Defined.

Lemma gen_bounds_witness :
  (0 < MainPy.GRID_WIDTH ∧ 0 < MainPy.GRID_HEIGHT ∧ 0 ≤ 3) ∧
  ∃ live r',
    gen MainPy.GRID_WIDTH MainPy.GRID_HEIGHT 3 zero_draws = inr (live, r') ∧
    Z.of_nat (size live) ≤ 3 ∧
    ∀ a b, (a, b) ∈ live →
           0 ≤ a < MainPy.GRID_HEIGHT ∧ 0 ≤ b < MainPy.GRID_WIDTH.
Proof.
  assert (HW : 0 < MainPy.GRID_WIDTH) by reflexivity.
  assert (HH : 0 < MainPy.GRID_HEIGHT) by reflexivity.
  assert (Hnum : 0 ≤ 3) by (intros ?; discriminate).
  split; [by repeat split |].
  exact (proj1 (gen_bounds MainPy.GRID_WIDTH MainPy.GRID_HEIGHT
                  MainPy.TILE_SIZE HW HH) 3 zero_draws Hnum).
Defined.

Lemma counter_invariant_witness :
  counter_ok about_to_fire ∧
  ∃ s' n r',
    iteration MainPy.GRID_WIDTH MainPy.GRID_HEIGHT MainPy.TILE_SIZE
      about_to_fire
      [MOUSEBUTTONDOWN 30 50; KEYDOWN K_SPACE; KEYDOWN K_g; KEYDOWN K_c]
      zero_draws
    = inr ((s', n), r') ∧ counter_ok s'.
Proof.
  assert (Hok : counter_ok about_to_fire)
    by (split; [intros ?; discriminate | reflexivity]).
  assert (HW : 0 < MainPy.GRID_WIDTH) by reflexivity.
  assert (HH : 0 < MainPy.GRID_HEIGHT) by reflexivity.
  assert (HT : MainPy.TILE_SIZE ≠ 0) by (intros ?; discriminate).
  split; [exact Hok |].
  exact (proj1 (proj2 (counter_invariant MainPy.GRID_WIDTH MainPy.GRID_HEIGHT
                         MainPy.TILE_SIZE)) HW HH HT about_to_fire _
           zero_draws Hok).
Defined.

Lemma no_spontaneous_generation_witness :
  ((2, 1) ∈ adjust_grid MainPy.GRID_WIDTH MainPy.GRID_HEIGHT blinker_h ∧
   ((2, 1) ∉ blinker_h)) ∧
  0 ≤ 2 ≤ MainPy.GRID_WIDTH ∧ 0 ≤ 1 ≤ MainPy.GRID_HEIGHT.
Proof.
  assert (Hin : (2, 1) ∈ adjust_grid MainPy.GRID_WIDTH MainPy.GRID_HEIGHT
                          blinker_h) by decide_by_evaluation.
  assert (Hout : (2, 1) ∉ blinker_h) by decide_by_evaluation.
  split; [by split |].
  exact (proj1 (proj2 (no_spontaneous_generation MainPy.GRID_WIDTH
                         MainPy.GRID_HEIGHT blinker_h)) (2, 1) Hin Hout).
Defined.

(** ** The settings of [app.py] *)

(** X18: every grid size and tile size that the sidebar of [app.py]
    offers gives a positive tile size that divides the window size, and a
    square grid of between 20 and 50 cells a side. *)
Theorem app_settings_valid (grid_size tile_size : Z) :
  grid_size ∈ AppPy.grid_size_options →
  tile_size ∈ AppPy.tile_size_options →
  0 < tile_size ∧ (tile_size | grid_size) ∧
  AppPy.GRID_WIDTH grid_size tile_size
  = AppPy.GRID_HEIGHT grid_size tile_size ∧
  20 ≤ AppPy.GRID_WIDTH grid_size tile_size ≤ 50 ∧
  grid_size = AppPy.GRID_WIDTH grid_size tile_size * tile_size.
Proof.
  unfold AppPy.grid_size_options, AppPy.tile_size_options.
  rewrite !elem_of_cons, !elem_of_nil.
  intros [-> | [-> | []]] [-> | [-> | []]];
    (split; [done |]); (split; [| by vm_compute]).
  - by exists 40.
  - by exists 20.
  - by exists 50.
  - by exists 25.
Qed.

(** ** The further theorems at the constants of [main.py] *)

Ltac concrete :=
  vm_compute;
  repeat match goal with |- _ ∧ _ => split end;
  first [reflexivity | exact I | (intros ?; discriminate) | lia].

Lemma on_grid_blinker_h :
  on_grid MainPy.GRID_WIDTH MainPy.GRID_HEIGHT blinker_h.
Proof.
  intros c. unfold blinker_h. rewrite !elem_of_union, !elem_of_singleton.
  intros [[-> | ->] | ->]; concrete.
Qed.

Lemma adjust_grid_conway_witness :
  (2, 1) ∈ adjust_grid MainPy.GRID_WIDTH MainPy.GRID_HEIGHT blinker_h ↔
  conway_alive_next blinker_h (2, 1).
Proof.
  apply (proj2 (adjust_grid_conway MainPy.GRID_WIDTH MainPy.GRID_HEIGHT
                  blinker_h)).
  intros p. unfold blinker_h. rewrite !elem_of_union, !elem_of_singleton.
  intros [[-> | ->] | ->]; concrete.
Defined.

Lemma sparse_generation_dies_witness :
  (size two_cells < 3)%nat ∧
  adjust_grid MainPy.GRID_WIDTH MainPy.GRID_HEIGHT two_cells = ∅.
Proof.
  assert (Hsize : (size two_cells < 3)%nat) by (vm_compute; lia).
  split; [exact Hsize |].
  exact (sparse_generation_dies MainPy.GRID_WIDTH MainPy.GRID_HEIGHT
           two_cells Hsize).
Defined.

Lemma neighbor_relation_witness :
  (1, 2) ∈ get_neighbors MainPy.GRID_WIDTH MainPy.GRID_HEIGHT (2, 2) ↔
  (2, 2) ∈ get_neighbors MainPy.GRID_WIDTH MainPy.GRID_HEIGHT (1, 2).
Proof.
  apply (proj1 (proj2 (neighbor_relation MainPy.GRID_WIDTH
                         MainPy.GRID_HEIGHT))); concrete.
Defined.

Lemma toggle_effect_witness :
  (2, 2) ∈ toggle (1, 2) blinker_h ↔ (2, 2) ∈ blinker_h.
Proof.
  apply (proj1 (proj2 (toggle_effect blinker_h (1, 2) (1, 2)))).
  intros Heq. discriminate.
Defined.

Lemma press_and_draw_witness :
  0 < MainPy.TILE_SIZE ∧
  ((0 / MainPy.TILE_SIZE, 0 / MainPy.TILE_SIZE) ∉ positions about_to_fire) ∧
  ∃ cmd,
    handle_event MainPy.GRID_WIDTH MainPy.GRID_HEIGHT MainPy.TILE_SIZE
      about_to_fire (MOUSEBUTTONDOWN 0 0) zero_draws =
    inr ({| running := true; playing := true; count := 119;
            positions := blinker_h ∪ {[(0 / MainPy.TILE_SIZE,
                                        0 / MainPy.TILE_SIZE)]} |},
         zero_draws) ∧
    cmd ∈ draw_grid MainPy.GRID_WIDTH MainPy.GRID_HEIGHT MainPy.TILE_SIZE
            MainPy.WIDTH MainPy.HEIGHT _ MainPy.GREEN MainPy.GREY
            (blinker_h ∪ {[(0 / MainPy.TILE_SIZE, 0 / MainPy.TILE_SIZE)]}) ∧
    covers cmd 0 0.
Proof.
  assert (HT : 0 < MainPy.TILE_SIZE) by reflexivity.
  assert (Hdead : (0 / MainPy.TILE_SIZE, 0 / MainPy.TILE_SIZE)
                    ∉ positions about_to_fire) by decide_by_evaluation.
  split; [exact HT |]. split; [exact Hdead |].
  exact (proj2 (press_and_draw MainPy.GRID_WIDTH MainPy.GRID_HEIGHT
                  MainPy.TILE_SIZE MainPy.WIDTH MainPy.HEIGHT _
                  MainPy.GREEN MainPy.GREY about_to_fire 0 0 zero_draws HT)
           Hdead).
Defined.

Lemma press_lands_on_grid_witness :
  in_window MainPy.WIDTH MainPy.HEIGHT 30 50 ∧
  visible MainPy.GRID_WIDTH MainPy.GRID_HEIGHT
    (30 / MainPy.TILE_SIZE, 50 / MainPy.TILE_SIZE).
Proof.
  assert (Hwin : in_window MainPy.WIDTH MainPy.HEIGHT 30 50) by concrete.
  split; [exact Hwin |].
  refine (proj2 (press_lands_on_grid MainPy.GRID_WIDTH MainPy.GRID_HEIGHT
                   MainPy.TILE_SIZE MainPy.WIDTH MainPy.HEIGHT 30 50
                   _ eq_refl eq_refl Hwin) _ _).
  - reflexivity.
  - by exists 40.
  - by exists 40.
Defined.

Lemma visible_iff_square_in_window_witness :
  visible MainPy.GRID_WIDTH MainPy.GRID_HEIGHT (1, 2) ↔
  ∀ x y, covers (Rect MainPy.GREEN (1 * MainPy.TILE_SIZE)
                   (2 * MainPy.TILE_SIZE) MainPy.TILE_SIZE MainPy.TILE_SIZE)
           x y →
         in_window MainPy.WIDTH MainPy.HEIGHT x y.
Proof.
  apply (visible_iff_square_in_window MainPy.GRID_WIDTH MainPy.GRID_HEIGHT
           MainPy.TILE_SIZE MainPy.WIDTH MainPy.HEIGHT _ MainPy.GREEN 1 2);
    reflexivity.
Defined.

Lemma boundary_birth_witness :
  (MainPy.GRID_WIDTH, 5)
    ∈ adjust_grid MainPy.GRID_WIDTH MainPy.GRID_HEIGHT
        (column_triple (MainPy.GRID_WIDTH - 1) 5) ∧
  ¬ visible MainPy.GRID_WIDTH MainPy.GRID_HEIGHT (MainPy.GRID_WIDTH, 5).
Proof.
  pose proof (boundary_birth MainPy.GRID_WIDTH MainPy.GRID_HEIGHT
                MainPy.TILE_SIZE MainPy.WIDTH MainPy.HEIGHT _
                MainPy.GREEN MainPy.GREY 5)
    as Hbirth.
  destruct Hbirth as (_ & Hborn & Hhidden & _); [concrete.. |].
  by split.
Defined.

Lemma randomize_result_witness :
  ∃ live r',
    handle_event MainPy.GRID_WIDTH MainPy.GRID_HEIGHT MainPy.TILE_SIZE
      initial (KEYDOWN K_g) zero_draws =
    inr ({| running := true; playing := false; count := 0;
            positions := live |}, r') ∧
    live ≠ ∅ ∧
    Z.of_nat (size live) ≤ 9 * MainPy.GRID_WIDTH ∧
    (MainPy.GRID_WIDTH = MainPy.GRID_HEIGHT →
     ∀ c, c ∈ live → visible MainPy.GRID_WIDTH MainPy.GRID_HEIGHT c).
Proof.
  apply (randomize_result MainPy.GRID_WIDTH MainPy.GRID_HEIGHT
           MainPy.TILE_SIZE initial zero_draws); reflexivity.
Defined.

Lemma gen_edge_cases_witness :
  gen MainPy.GRID_WIDTH MainPy.GRID_HEIGHT 0 zero_draws
  = inr (∅, zero_draws) ∧
  gen MainPy.GRID_WIDTH 0 3 zero_draws = inl ValueError.
Proof.
  split.
  - apply (proj1 (gen_edge_cases MainPy.GRID_WIDTH MainPy.GRID_HEIGHT)).
    concrete.
  - apply (proj2 (gen_edge_cases MainPy.GRID_WIDTH 0)); [reflexivity |].
    left. concrete.
Defined.

Lemma quit_ends_loop_witness :
  QUIT ∈ [MOUSEBUTTONDOWN 30 50; QUIT] ∧
  main_loop MainPy.GRID_WIDTH MainPy.GRID_HEIGHT MainPy.TILE_SIZE
    ([[]] ++ [MOUSEBUTTONDOWN 30 50; QUIT] :: ticks 3)
    running_from_zero zero_draws
  = main_loop MainPy.GRID_WIDTH MainPy.GRID_HEIGHT MainPy.TILE_SIZE
      ([[]] ++ [[MOUSEBUTTONDOWN 30 50; QUIT]])
      running_from_zero zero_draws.
Proof.
  assert (Hq : QUIT ∈ [MOUSEBUTTONDOWN 30 50; QUIT]).
  { apply elem_of_cons. right. apply elem_of_cons. by left. }
  split; [exact Hq |].
  exact (quit_ends_loop MainPy.GRID_WIDTH MainPy.GRID_HEIGHT
           MainPy.TILE_SIZE [[]] _ (ticks 3) running_from_zero zero_draws
           Hq).
Defined.

Lemma advance_rate_witness :
  ∃ s' n r',
    main_loop MainPy.GRID_WIDTH MainPy.GRID_HEIGHT MainPy.TILE_SIZE
      (ticks 5) about_to_fire zero_draws = inr ((s', n), r') ∧
    0 ≤ count s' ∧
    update_freq * Z.of_nat n + count s'
    ≤ count about_to_fire + Z.of_nat (length (ticks 5)).
Proof.
  apply (advance_rate MainPy.GRID_WIDTH MainPy.GRID_HEIGHT MainPy.TILE_SIZE
           (ticks 5) about_to_fire zero_draws); concrete.
Defined.

Lemma live_cells_stay_on_grid_witness :
  ∃ s' n r',
    main_loop MainPy.GRID_WIDTH MainPy.GRID_HEIGHT MainPy.TILE_SIZE
      [[MOUSEBUTTONDOWN 30 50]; [KEYDOWN K_g]; []]
      about_to_fire zero_draws = inr ((s', n), r') ∧
    on_grid MainPy.GRID_WIDTH MainPy.GRID_HEIGHT (positions s').
Proof.
  apply (live_cells_stay_on_grid MainPy.GRID_WIDTH MainPy.GRID_HEIGHT
           MainPy.TILE_SIZE MainPy.WIDTH MainPy.HEIGHT);
    try reflexivity.
  - repeat constructor; concrete.
  - exact on_grid_blinker_h.
Defined.

Lemma pause_keeps_counter_witness :
  main_loop MainPy.GRID_WIDTH MainPy.GRID_HEIGHT MainPy.TILE_SIZE
    ([KEYDOWN K_SPACE] :: ticks 300 ++ [[KEYDOWN K_SPACE]])
    {| running := true; playing := true; count := 57;
       positions := blinker_h |} zero_draws
  = inr (({| running := true; playing := true; count := 57 + 1;
             positions := blinker_h |}, 0%nat), zero_draws).
Proof.
  apply (pause_keeps_counter MainPy.GRID_WIDTH MainPy.GRID_HEIGHT
           MainPy.TILE_SIZE 300 blinker_h 57 zero_draws).
  reflexivity.
Defined.

Lemma running_generations_witness :
  main_loop MainPy.GRID_WIDTH MainPy.GRID_HEIGHT MainPy.TILE_SIZE
    (ticks 250)
    {| running := true; playing := true; count := 0;
       positions := blinker_h |} zero_draws
  = inr (({| running := true; playing := true;
             count := (0 + Z.of_nat 250) `mod` update_freq;
             positions :=
               Nat.iter (Z.to_nat ((0 + Z.of_nat 250) `div` update_freq))
                 (adjust_grid MainPy.GRID_WIDTH MainPy.GRID_HEIGHT)
                 blinker_h |},
          Z.to_nat ((0 + Z.of_nat 250) `div` update_freq)), zero_draws).
Proof.
  apply (running_generations MainPy.GRID_WIDTH MainPy.GRID_HEIGHT
           MainPy.TILE_SIZE 250 blinker_h 0 zero_draws).
  concrete.
Defined.

Lemma app_settings_valid_witness :
  0 < 40 ∧ (40 | 1000) ∧
  AppPy.GRID_WIDTH 1000 40 = AppPy.GRID_HEIGHT 1000 40 ∧
  20 ≤ AppPy.GRID_WIDTH 1000 40 ≤ 50 ∧
  1000 = AppPy.GRID_WIDTH 1000 40 * 40.
Proof.
  apply (app_settings_valid 1000 40).
  - apply elem_of_cons. right. apply elem_of_cons. by left.
  - apply elem_of_cons. right. apply elem_of_cons. by left.
Defined.

Lemma adjust_grid_any_order_witness :
  fold_left
    (fun a x => birth_step MainPy.GRID_WIDTH MainPy.GRID_HEIGHT blinker_h x a)
    (reverse (elements
            (fold_left
               (fun a x => survive_step MainPy.GRID_WIDTH MainPy.GRID_HEIGHT
                             blinker_h x a)
               (reverse (elements blinker_h)) (∅, ∅)).1))
    (fold_left
       (fun a x => survive_step MainPy.GRID_WIDTH MainPy.GRID_HEIGHT
                     blinker_h x a)
       (reverse (elements blinker_h)) (∅, ∅)).2
  = adjust_grid MainPy.GRID_WIDTH MainPy.GRID_HEIGHT blinker_h.
Proof.
  apply (adjust_grid_any_order MainPy.GRID_WIDTH MainPy.GRID_HEIGHT
           blinker_h (reverse (elements blinker_h))).
  - intros c. by rewrite elem_of_reverse, elem_of_elements.
  - intros c. by rewrite elem_of_reverse, elem_of_elements.
Defined.

Lemma still_life_iff_witness :
  adjust_grid MainPy.GRID_WIDTH MainPy.GRID_HEIGHT block = block ∧
  (live_count MainPy.GRID_WIDTH MainPy.GRID_HEIGHT block (1, 1) = 2%nat ∨
   live_count MainPy.GRID_WIDTH MainPy.GRID_HEIGHT block (1, 1) = 3%nat).
Proof.
  assert (Hfix : adjust_grid MainPy.GRID_WIDTH MainPy.GRID_HEIGHT block
                 = block) by by_evaluation.
  split; [exact Hfix |].
  apply (proj1 (proj1 (still_life_iff MainPy.GRID_WIDTH MainPy.GRID_HEIGHT
                         block) Hfix)).
  decide_by_evaluation.
Defined.
